(** * coroutinesub: a dictionary attack on general substitution ciphers

    A shallow embedding of [coroutinesub.py] and the properties of its
    propagation pipeline.

    Conventions of the embedding.
    - A Python 2 [str] is a list of 8-bit characters ([list ascii]); a
      single character is an [ascii].
    - A Python [dict] from characters to characters is a [gmap ascii ascii];
      its iteration order never influences a result that is modelled here.
    - Dictionaries are mutable objects that are passed by reference between
      the coroutines: they live in a heap ([list dict], a reference is an
      index), and [copy] allocates a fresh cell.
    - A Python exception ([KeyError], [IndexError]) is the result [None],
      and so is a regular expression outside the fragment that is modelled;
      neither happens in a run of the program, which is proved with the
      properties of the run. *)

From Stdlib Require Import Ascii String.
From stdpp Require Import base list gmap strings sorting.

Set Warnings "-notation-for-abbreviation".

Local Open Scope char_scope.
Local Open Scope list_scope.

(** ** Characters and strings *)

Notation chars := (list ascii).
Notation dict := (gmap ascii ascii).

(** String literals of the source, as character lists. *)
Definition str (s : string) : chars := list_ascii_of_string s.

(** [string.ascii_lowercase] *)
Definition ascii_lowercase : chars := str "abcdefghijklmnopqrstuvwxyz".

(** [ch in ascii_lowercase], for a one-character string [ch]. *)
Definition in_lowercase (ch : ascii) : bool := bool_decide (ch ∈ ascii_lowercase).

(** [ch.lower()] and [ch.upper()] of a byte string in the C locale: only the
    ASCII letters change. *)
Definition lower (ch : ascii) : ascii :=
  let n := N_of_ascii ch in
  if ((65 <=? n) && (n <=? 90))%N then ascii_of_N (n + 32) else ch.

Definition upper (ch : ascii) : ascii :=
  let n := N_of_ascii ch in
  if ((97 <=? n) && (n <=? 122))%N then ascii_of_N (n - 32) else ch.

(** An ASCII alphabetic character. *)
Definition is_alpha (ch : ascii) : bool :=
  let n := N_of_ascii ch in
  ((65 <=? n) && (n <=? 90) || (97 <=? n) && (n <=? 122))%N.

(** ** [scrubstring] *)

Definition scrubstring (s : chars) : chars :=
  filter (λ ch, ch ∈ ascii_lowercase) (map lower s).

(** ** [getpatterntuple] *)

(** The loop of [getpatterntuple]: [letters] is the dictionary of ranks,
    [tup] the tuple built so far. *)
Fixpoint getpatterntuple_loop (word : chars) (letters : gmap ascii nat)
    (tup : list nat) : list nat :=
  match word with
  | [] => tup
  | letter :: rest =>
      match letters !! letter with
      | Some n => getpatterntuple_loop rest letters (tup ++ [n])
      | None =>
          let letternum := size letters + 1 in
          getpatterntuple_loop rest (<[letter := letternum]> letters)
            (tup ++ [letternum])
      end
  end.

Definition getpatterntuple (word : chars) : list nat :=
  getpatterntuple_loop (map lower word) ∅ [].

(** ** The fragment of Python's [re] that [getregex] produces

    [getregex] only ever builds patterns of the shape
    [^ item* $] where an item is [.], a negated class [[^abc]] or a
    literal.  [re_compile] parses exactly that fragment, with lowercase
    letters as literals and class members (every other character could be
    a metacharacter of [re]); a pattern outside the fragment is [None]. *)

Inductive re_atom : Type :=
  | ReAny                      (* [.]: any character except a newline *)
  | ReNotIn (cs : list ascii)  (* [[^cs]] *)
  | ReLit (c : ascii).

Notation regex := (list re_atom).

(** [cls] is [Some acc] while the parser is inside a class whose members
    read so far are [acc]. *)
Fixpoint re_parse (cls : option (list ascii)) (s : chars) : option regex :=
  match s with
  | [] => None
  | c :: s' =>
      match cls with
      | Some acc =>
          if bool_decide (c = "]") then
            match acc with
            | [] => None
            | _ => (ReNotIn acc ::.) <$> re_parse None s'
            end
          else if in_lowercase c then re_parse (Some (acc ++ [c])) s'
          else None
      | None =>
          if bool_decide (c = "$") then
            match s' with [] => Some [] | _ => None end
          else if bool_decide (c = ".") then (ReAny ::.) <$> re_parse None s'
          else if bool_decide (c = "[") then
            match s' with
            | "^" :: s'' => re_parse (Some []) s''
            | _ => None
            end
          else if in_lowercase c then (ReLit c ::.) <$> re_parse None s'
          else None
      end
  end.

(** [re.compile] *)
Definition re_compile (pattern : chars) : option regex :=
  match pattern with
  | "^" :: body => re_parse None body
  | _ => None
  end.

Definition newline : ascii := "010".

Definition re_atom_match (a : re_atom) (c : ascii) : bool :=
  match a with
  | ReAny => negb (bool_decide (c = newline))
  | ReNotIn cs => negb (bool_decide (c ∈ cs))
  | ReLit x => bool_decide (c = x)
  end.

(** [regex.match(s)] for a compiled [^ item* $]: the items consume the
    string one character each, and [$] accepts the end of the string or a
    single trailing newline. *)
Fixpoint re_match (r : regex) (s : chars) : bool :=
  match r, s with
  | [], [] => true
  | [], [c] => bool_decide (c = newline)
  | a :: r', c :: s' => re_atom_match a c && re_match r' s'
  | _, _ => false
  end.

(** ** [getregex] *)

(** [subs.values()] *)
Definition values (subs : dict) : list ascii := (map_to_list subs).*2.

Definition getregex (cipherword : chars) (subs : dict) : option regex :=
  let wildcard :=
    if bool_decide (0 < size subs) then str "[^" ++ values subs ++ str "]"
    else str "." in
  let regex :=
    concat (map (λ ch, match subs !! ch with
                        | None => wildcard
                        | Some p => [p]
                        end) cipherword) in
  re_compile (str "^" ++ regex ++ str "$").

(** ** [prettyprint] *)

Fixpoint prettyprint_loop (ciphertext : chars) (substitutions : dict)
    (ans : chars) : option chars :=
  match ciphertext with
  | [] => Some ans
  | ch :: rest =>
      if bool_decide (is_Some (substitutions !! lower ch)) then
        if in_lowercase ch then
          v ← substitutions !! ch;
          prettyprint_loop rest substitutions (ans ++ [v])
        else
          v ← substitutions !! lower ch;
          prettyprint_loop rest substitutions (ans ++ [upper v])
      else prettyprint_loop rest substitutions (ans ++ [ch])
  end.

Definition prettyprint (ciphertext : chars) (substitutions : dict) : option chars :=
  prettyprint_loop ciphertext substitutions [].

(** ** The coroutines

    A coroutine that has been started waits at its [yield]; what is modelled
    is the effect of one [send]: the reference of a dictionary is handed
    over, the body runs (sending to its own target on the way) and comes
    back to the [yield].  [S] is the private state of the coroutine at the
    end of the chain. *)

Section coroutines.
Context {S : Type}.

Record store : Type := Store { heap : list dict; sink : S }.

Definition coroutine : Type := nat → store → option store.

(** [copy(guess)]: a new dictionary object with the items [guess] has at
    this moment. *)
Definition copy (guess : nat) (σ : store) : option (nat * store) :=
  d ← heap σ !! guess;
  Some (length (heap σ), Store (heap σ ++ [d]) (sink σ)).

(** [newguess[c] = p] *)
Definition setitem (newguess : nat) (c p : ascii) (σ : store) : option store :=
  d ← heap σ !! newguess;
  Some (Store (<[newguess := <[c := p]> d]> (heap σ)) (sink σ)).

(** [for i in xrange(len(cipherword)): newguess[cipherword[i]] = plainword[i]],
    [range] being the indices still to visit. *)
Fixpoint assign_loop (range : list nat) (cipherword plainword : chars)
    (newguess : nat) (σ : store) : option store :=
  match range with
  | [] => Some σ
  | i :: range' =>
      c ← cipherword !! i;
      p ← plainword !! i;
      σ' ← setitem newguess c p σ;
      assign_loop range' cipherword plainword newguess σ'
  end.

(** [for plainword in patterns: ...] *)
Fixpoint guesser_loop (regex : regex) (cipherword : chars)
    (patterns : list chars) (target : coroutine) (guess : nat) (σ : store)
    : option store :=
  match patterns with
  | [] => Some σ
  | plainword :: rest =>
      if re_match regex plainword then
        '(newguess, σ1) ← copy guess σ;
        σ2 ← assign_loop (seq 0 (length cipherword)) cipherword plainword
               newguess σ1;
        σ3 ← target newguess σ2;
        guesser_loop regex cipherword rest target guess σ3
      else guesser_loop regex cipherword rest target guess σ
  end.

(** One round of the [while True] loop of [guesser]. *)
Definition guesser (cipherword : chars) (patterns : list chars)
    (target : coroutine) : coroutine := λ guess σ,
  d ← heap σ !! guess;
  regex ← getregex cipherword d;
  guesser_loop regex cipherword patterns target guess σ.

(** A coroutine at the end of a chain that only reads the dictionary it is
    sent and updates its private state. *)
Definition reader (f : dict → S → option S) : coroutine := λ guess σ,
  d ← heap σ !! guess;
  s ← f d (sink σ);
  Some (Store (heap σ) s).
End coroutines.

Arguments store : clear implicits.
Arguments coroutine : clear implicits.

(** ** [guesscollector] *)

Notation possibilities := (gmap ascii (gset ascii)).

(** [{letter : set() for letter in ascii_lowercase}] *)
Definition possibilities_init : possibilities :=
  list_to_map ((λ letter, (letter, ∅)) <$> ascii_lowercase).

(** [possibilities[cipherletter].add(p)] *)
Definition possibilities_add (cipherletter p : ascii) (poss : possibilities)
    : option possibilities :=
  s ← poss !! cipherletter;
  Some (<[cipherletter := s ∪ {[p]}]> poss).

(** [for cipherletter in guess: possibilities[cipherletter].add(guess[cipherletter])] *)
Fixpoint observe_loop (items : list (ascii * ascii)) (poss : possibilities)
    : option possibilities :=
  match items with
  | [] => Some poss
  | (cipherletter, p) :: rest =>
      poss' ← possibilities_add cipherletter p poss;
      observe_loop rest poss'
  end.

Definition observe (guess : dict) (poss : possibilities) : option possibilities :=
  observe_loop (map_to_list guess) poss.

(** One round of the [while True] loop of [guesscollector]. *)
Definition guesscollector : coroutine possibilities := λ guess σ,
  d ← heap σ !! guess;
  poss ← observe d (sink σ);
  Some (Store (heap σ) poss).

(** The [except GeneratorExit] block: the table that is handed to
    [prettyprint]. *)
Definition finaldict (poss : possibilities) : dict :=
  omap (λ s : gset ascii,
          match size s with
          | 0 => None
          | 1 => head (elements s)
          | _ => Some "_"
          end) poss.

Definition guesscollector_close (originalciphertext : chars)
    (poss : possibilities) : option chars :=
  prettyprint originalciphertext (finaldict poss).

(** A coroutine that keeps the dictionaries it is sent, as they are when
    they arrive: the probe used to speak about what a stage forwards. *)
Definition recorder : coroutine (list dict) :=
  reader (λ d seen, Some (seen ++ [d])).

(** ** The main program, decrypting *)

(** [text.split(' ')] *)
Fixpoint split_loop (text : chars) (cur : chars) : list chars :=
  match text with
  | [] => [cur]
  | ch :: rest =>
      if bool_decide (ch = " ") then cur :: split_loop rest []
      else split_loop rest (cur ++ [ch])
  end.

Definition split (text : chars) : list chars := split_loop text [].

Definition cipherlist (text : chars) : list chars :=
  filter (λ w, w ≠ []) (scrubstring <$> split text).

Notation index := (gmap (list nat) (list chars)).

(** [{getpatterntuple(word) : [] for word in cipherlist}] *)
Definition patterns_init (cipherlist : list chars) : index :=
  foldl (λ patterns word, <[getpatterntuple word := []]> patterns) ∅ cipherlist.

(** The body of [for line in f]. *)
Definition patterns_add (patterns : index) (line : chars) : index :=
  let line := scrubstring line in
  let tup := getpatterntuple line in
  match patterns !! tup with
  | Some ws =>
      if bool_decide (line ∈ ws) then patterns
      else <[tup := ws ++ [line]]> patterns
  | None => patterns
  end.

Definition load_patterns (cipherlist : list chars) (dictfile : list chars) : index :=
  foldl patterns_add (patterns_init cipherlist) dictfile.

(** [patterns[getpatterntuple(word)]]; the key is there for every word of
    the cipher list (lemma [candidates_present]). *)
Definition candidates (patterns : index) (word : chars) : list chars :=
  patterns !!! getpatterntuple word.

(** The comparison function given to [cipherlist.sort]. *)
Definition cmp (patterns : index) (a b : chars) : Z :=
  (Z.of_nat (length (candidates patterns b))
  - Z.of_nat (length (candidates patterns a)))%Z.

(** [list.sort(cmp)] is a stable sort, and [cmp] compares two integers
    keys, so its result is the one of any stable sort: here insertion
    from the right. *)
Fixpoint sort_insert (cmp : chars → chars → Z) (x : chars) (l : list chars)
    : list chars :=
  match l with
  | [] => [x]
  | y :: l' =>
      if bool_decide (cmp x y ≤ 0)%Z then x :: l
      else y :: sort_insert cmp x l'
  end.

Definition sort (cmp : chars → chars → Z) (l : list chars) : list chars :=
  foldr (sort_insert cmp) [] l.

(** [for word in cipherlist: target = guesser(word, ..., target)] *)
Definition chain {S : Type} (cipherlist : list chars) (patterns : index)
    (target : coroutine S) : coroutine S :=
  foldl (λ target word, guesser word (candidates patterns word) target)
    target cipherlist.

(** [target.send({})] on the chain assembled over [order] in front of
    [target], whose private state starts as [s]. *)
Definition send_empty {S : Type} (order : list chars) (patterns : index)
    (target : coroutine S) (s : S) : option (store S) :=
  chain order patterns target 0 (Store [∅] s).

Definition sorted_cipherlist (text : chars) (dictfile : list chars) : list chars :=
  let cipherlist := cipherlist text in
  sort (cmp (load_patterns cipherlist dictfile)) cipherlist.

(** The run of the [else] branch of the main program up to [target.send({})],
    with [target] at the end of the chain. *)
Definition run {S : Type} (text : chars) (dictfile : list chars)
    (target : coroutine S) (s : S) : option (store S) :=
  send_empty (sorted_cipherlist text dictfile)
    (load_patterns (cipherlist text) dictfile) target s.

(** The string that is printed ([print] adds a newline).
    [target.close()] ends the first coroutine of the chain; each coroutine
    holds the only reference to the next, so the collector is finalised,
    once, when the chain is released. *)
Definition decrypt (text : chars) (dictfile : list chars) : option chars :=
  σ ← run text dictfile guesscollector possibilities_init;
  guesscollector_close text (sink σ).

(** The table of the run, and the dictionaries that reach the end of the
    chain. *)
Definition resolution (text : chars) (dictfile : list chars) : option dict :=
  finaldict ∘ sink <$> run text dictfile guesscollector possibilities_init.

Definition observed (text : chars) (dictfile : list chars) : option (list dict) :=
  sink <$> run text dictfile recorder [].

(** ** Notions of the specification and of the proofs *)

(** A normalised word: lower-case letters only. *)
Definition letters (w : chars) : Prop := Forall (λ ch, ch ∈ ascii_lowercase) w.

(** The invariant of the loop of [getpatterntuple] when it has scanned
    [pre]: the tuple holds the rank of each character scanned, distinct
    characters have distinct ranks, and the ranks in use are at most the
    size of the dictionary. *)
Record ranks_inv (letters : gmap ascii nat) (tup : list nat) (pre : chars) : Prop := {
  ri_tup : ∀ i c, pre !! i = Some c → ∃ n, letters !! c = Some n ∧ tup !! i = Some n;
  ri_len : length tup = length pre;
  ri_inj : ∀ c c' n, letters !! c = Some n → letters !! c' = Some n → c = c';
  ri_bound : ∀ c n, letters !! c = Some n → n ≤ size letters;
}.

(** Two words of the same shape: the same length, and the same positions
    hold equal characters. *)
Definition same_shape (w1 w2 : chars) : Prop :=
  length w1 = length w2 ∧
  ∀ i j a b a' b', w1 !! i = Some a → w1 !! j = Some b →
    w2 !! i = Some a' → w2 !! j = Some b' → (a = b ↔ a' = b').

(** [f] and [g] are inverse bijections between the letters of [w1] and the
    letters of [w2], and [f] applied letter for letter to [w1] gives [w2]. *)
Definition letter_bijection (f g : ascii → ascii) (w1 w2 : chars) : Prop :=
  map f w1 = w2 ∧ map g w2 = w1 ∧
  (∀ a, a ∈ w1 → g (f a) = a) ∧ (∀ b, b ∈ w2 → f (g b) = b).

(** The admissibility test of the specification at one position, as a
    function: a mapped cipher letter needs its value, an unmapped one a
    letter that is the value of no cipher letter. *)
Definition admits_at (guess : dict) (c p : ascii) : bool :=
  match guess !! c with
  | Some q => bool_decide (p = q)
  | None => bool_decide (p ∉ values guess)
  end.

(** The test for a candidate: the length of the cipher word, and every
    position admissible. *)
Definition admits (cipherword plainword : chars) (guess : dict) : bool :=
  bool_decide (length cipherword = length plainword)
  && forallb (λ cp, admits_at guess cp.1 cp.2) (zip cipherword plainword).

(** The compiled form of the pattern of [getregex]. *)
Definition atom_of (subs : dict) (ch : ascii) : re_atom :=
  match subs !! ch with
  | None => if bool_decide (0 < size subs) then ReNotIn (values subs) else ReAny
  | Some p => ReLit p
  end.

(** The dictionary a stage derives from [guess] for a candidate. *)
Definition extend (cipherword plainword : chars) (guess : dict) : dict :=
  foldl (λ d cp, <[cp.1 := cp.2]> d) guess (zip cipherword plainword).

(** The dictionaries a stage forwards for one inbound dictionary, in the
    order in which it sends them. *)
Definition stage_out (cipherword : chars) (patterns : list chars) (guess : dict)
    : list dict :=
  patterns ≫= λ plainword,
    if admits cipherword plainword guess then [extend cipherword plainword guess]
    else [].

(** The dictionaries that leave a chain of stages, the first stage of the
    list being the one that is sent to. *)
Fixpoint chain_out (stages : list (chars * list chars)) (guess : dict) : list dict :=
  match stages with
  | [] => [guess]
  | (cipherword, patterns) :: rest =>
      stage_out cipherword patterns guess ≫= chain_out rest
  end.

(** The effect on the private state of a reader of a list of dictionaries
    sent one after the other. *)
Fixpoint fold_opt {S : Type} (f : dict → S → option S) (ds : list dict) (s : S)
    : option S :=
  match ds with
  | [] => Some s
  | d :: ds' => s' ← f d s; fold_opt f ds' s'
  end.

(** A coroutine [T] in front of a reader [f] behaves as the function [F] on
    the dictionaries that satisfy [P]: it sends the reader the dictionaries
    [F d], in order, leaves every object of the heap as it was, and the
    objects that it and the coroutines behind it create satisfy [Q]. *)
Definition implements {S : Type} (f : dict → S → option S) (T : coroutine S)
    (F : dict → list dict) (P Q : dict → Prop) : Prop :=
  ∀ guess σ d, heap σ !! guess = Some d → P d →
    match fold_opt f (F d) (sink σ) with
    | Some s' => ∃ h', T guess σ = Some (Store (heap σ ++ h') s') ∧ Forall Q h'
    | None => T guess σ = None
    end.

(** Keys and values are lowercase letters. *)
Definition letter_map (d : dict) : Prop :=
  map_Forall (λ c p, c ∈ ascii_lowercase ∧ p ∈ ascii_lowercase) d.

(** The stages of the chain assembled over [order] with their candidates,
    the first being the one that is sent to: the last word of [order]. *)
Definition the_stages (order : list chars) (patterns : index)
    : list (chars * list chars) :=
  reverse ((λ w, (w, candidates patterns w)) <$> order).

(** The word and the candidates of a stage are made of letters. *)
Definition wf_stage (st : chars * list chars) : Prop :=
  letters st.1 ∧ Forall letters st.2.

(** No two distinct cipher letters have the same plain letter. *)
Definition injective (d : dict) : Prop :=
  ∀ c c' p, d !! c = Some p → d !! c' = Some p → c = c'.

(** The pairs (cipher letter, candidate letter) of the positions of a word. *)
Definition pairs (cipherword plainword : chars) (c p : ascii) : Prop :=
  ∃ i, cipherword !! i = Some c ∧ plainword !! i = Some p.

(** The condition of the specification on one position. *)
Definition admissible_at (guess : dict) (c p : ascii) : Prop :=
  guess !! c = Some p ∨
  (guess !! c = None ∧ ∀ c' p', guess !! c' = Some p' → p ≠ p').

(** The pairs of a word and a mapping fit together as one injective
    function. *)
Definition cross (guess : dict) (cipherword plainword : chars) : Prop :=
  ∀ c p c' q, pairs cipherword plainword c p → guess !! c' = Some q →
    (c = c' ↔ p = q).

(** Every candidate of the stage has the repetition pattern of its word. *)
Definition shape_stage (st : chars * list chars) : Prop :=
  Forall (same_shape st.1) st.2.

(** The buckets of the index hold scrubbed lines with the pattern of their
    key. *)
Definition index_ok (patterns : index) : Prop :=
  ∀ tup ws, patterns !! tup = Some ws →
    Forall (λ w, letters w ∧ getpatterntuple w = tup) ws.

(** The invariant of the mappings of a run. *)
Definition good_map (d : dict) : Prop := letter_map d ∧ injective d.

(** The stages of the run, the first being the one that is sent to. *)
Definition run_stages (text : chars) (dictfile : list chars) : list (chars * list chars) :=
  the_stages (sorted_cipherlist text dictfile) (load_patterns (cipherlist text) dictfile).

(** [for d in ds: target.send(d)], every [d] a dictionary object of its own. *)
Fixpoint send_all {St : Type} (target : coroutine St) (ds : list dict)
    (σ : store St) : option (store St) :=
  match ds with
  | [] => Some σ
  | d :: ds' =>
      σ' ← target (length (heap σ)) (Store (heap σ ++ [d]) (sink σ));
      send_all target ds' σ'
  end.

(** [poss'] is [poss] with the pairs of [R] added. *)
Definition poss_extends (R : ascii → ascii → Prop) (poss poss' : possibilities) : Prop :=
  ∀ c, match poss !! c, poss' !! c with
       | Some s, Some s' => ∀ p, p ∈ s' ↔ p ∈ s ∨ R c p
       | None, None => True
       | _, _ => False
       end.

Definition ascii_uppercase : chars := str "ABCDEFGHIJKLMNOPQRSTUVWXYZ".

(** What [prettyprint] puts for one character. *)
Definition render (substitutions : dict) (ch : ascii) : ascii :=
  match substitutions !! lower ch with
  | Some v => if in_lowercase ch then v else upper v
  | None => ch
  end.

(** The number of [guesser] coroutines the main program creates: one for
    each turn of [for word in cipherlist]. *)
Definition stage_count (text : chars) (dictfile : list chars) : nat :=
  length (sorted_cipherlist text dictfile).

(** The claim that a word without candidates leaves the letters of the
    other words resolved from their candidates, at one input. *)
Definition zero_candidate_claim (text : chars) (dictfile : list chars) : Prop :=
  ∀ w0 w c,
    w0 ∈ cipherlist text →
    candidates (load_patterns (cipherlist text) dictfile) w0 = [] →
    w ∈ cipherlist text →
    candidates (load_patterns (cipherlist text) dictfile) w ≠ [] →
    c ∈ w →
    ∃ table, resolution text dictfile = Some table ∧ is_Some (table !! c).

(** The claim that repeated words share one stage, at one input. *)
Definition one_stage_per_word_claim (text : chars) (dictfile : list chars) : Prop :=
  stage_count text dictfile = length (remove_dups (cipherlist text)).

#[global] Instance letters_dec (w : chars) : Decision (letters w).
Proof. unfold letters. apply _. Defined.

#[global] Instance letter_map_dec (d : dict) : Decision (letter_map d).
Proof. unfold letter_map. apply _. Defined.

(** Closes a decidable proposition about concrete data by evaluation. *)
Ltac by_eval :=
  match goal with
  | |- ?P => apply (bool_decide_unpack P); vm_compute; exact I
  end.

(** The set of a cipher letter after the collector has taken [d]. *)
Definition observe_at (d : dict) (c : ascii) (s : gset ascii) : gset ascii :=
  match d !! c with
  | Some p => s ∪ {[p]}
  | None => s
  end.

(** ** The depth of the chain *)
(** A call enters a frame.  The interpreter bounds the number of frames
    that are entered and not yet left: the call is refused ([RuntimeError],
    here [None]) when no level of [depth] is left, and the calls made from
    inside the frame have one level less. *)
Definition enter {St : Type} (body : nat → coroutine St) : nat → coroutine St :=
  λ depth,
    match depth with
    | 0 => λ _ _, None
    | Datatypes.S depth' => body depth'
    end.

(** [for word in cipherlist: target = guesser(word, ..., target)], with
    the frames counted: a [send] runs the body of the coroutine in a frame
    of its own, and a stage sends to its target from inside its frame, so
    a dictionary that has gone through [k] stages has [k] frames below it.
    [depth] is the number of frames of coroutines that can still be
    entered; the frames a stage needs for its own calls ([getregex], [re],
    [copy]) are the same at every stage and are not counted in it. *)
Definition chain_within {St : Type} (cipherlist : list chars) (patterns : index)
    (target : coroutine St) : nat → coroutine St :=
  foldl (λ (target : nat → coroutine St) word,
           enter (λ depth, guesser word (candidates patterns word) (target depth)))
    (enter (λ _, target)) cipherlist.

(** [target.send({})] when [depth] frames can still be entered. *)
Definition send_empty_within {St : Type} (depth : nat) (order : list chars)
    (patterns : index) (target : coroutine St) (s : St) : option (store St) :=
  chain_within order patterns target depth 0 (Store [∅] s).

Definition run_within {St : Type} (depth : nat) (text : chars)
    (dictfile : list chars) (target : coroutine St) (s : St) : option (store St) :=
  send_empty_within depth (sorted_cipherlist text dictfile)
    (load_patterns (cipherlist text) dictfile) target s.

(** The string that is printed by a run in which the [send] comes back;
    [None] is the run in which it raises. *)
Definition decrypt_within (depth : nat) (text : chars) (dictfile : list chars)
    : option chars :=
  σ ← run_within depth text dictfile guesscollector possibilities_init;
  guesscollector_close text (sink σ).

Definition resolution_within (depth : nat) (text : chars) (dictfile : list chars)
    : option dict :=
  finaldict ∘ sink <$> run_within depth text dictfile guesscollector possibilities_init.

Definition observed_within (depth : nat) (text : chars) (dictfile : list chars)
    : option (list dict) :=
  sink <$> run_within depth text dictfile recorder [].

(** ** The main program, encrypting *)
(** [{ascii_lowercase[i] : letters[i] for i in xrange(len(letters))}],
    [range] being the indices still to visit. *)
Fixpoint cipher_loop (range : list nat) (letters : chars) (cipher : dict)
    : option dict :=
  match range with
  | [] => Some cipher
  | i :: range' =>
      k ← ascii_lowercase !! i;
      v ← letters !! i;
      cipher_loop range' letters (<[k := v]> cipher)
  end.

Definition make_cipher (letters : chars) : option dict :=
  cipher_loop (seq 0 (length letters)) letters ∅.

(** The [if args.encrypt] branch: [letters] is [list(ascii_lowercase)] as
    [random.shuffle] has left it, and the result is the string that is
    printed. *)
Definition encrypt (text : chars) (letters : chars) : option chars :=
  cipher ← make_cipher letters;
  prettyprint text cipher.

(** The table that undoes the cipher made from [letters]. *)
Definition inverse_key (letters : chars) : dict := extend letters ascii_lowercase ∅.

(** The letter a table gives for a lower-case letter (the letter itself
    when the table has no entry). *)
Definition apply_table (table : dict) (c : ascii) : ascii := default c (table !! c).

(** * Properties *)

(** ** Characters *)

Lemma in_lowercase_elem_of ch : in_lowercase ch = true ↔ ch ∈ ascii_lowercase.
Proof. unfold in_lowercase. by rewrite bool_decide_eq_true. Qed.

Lemma lower_lowercase ch : ch ∈ ascii_lowercase → lower ch = ch.
Proof.
  intros H. apply in_lowercase_elem_of in H. revert H.
  destruct ch as [[] [] [] [] [] [] [] []]; vm_compute; congruence.
Qed.

Lemma lowercase_not_special ch :
  ch ∈ ascii_lowercase →
  ch ≠ "$" ∧ ch ≠ "." ∧ ch ≠ "[" ∧ ch ≠ "]" ∧ ch ≠ newline ∧ ch ≠ "_".
Proof.
  intros H. apply in_lowercase_elem_of in H. revert H.
  destruct ch as [[] [] [] [] [] [] [] []]; vm_compute; intros; repeat split; congruence.
Qed.

Lemma in_lowercase_alpha ch : in_lowercase (lower ch) = is_alpha ch.
Proof. destruct ch as [[] [] [] [] [] [] [] []]; vm_compute; congruence. Qed.

Lemma letters_scrubstring s : letters (scrubstring s).
Proof.
  unfold letters, scrubstring. apply Forall_forall. intros ch Hch.
  by apply list_elem_of_filter in Hch as [? _].
Qed.

Lemma letters_lower w : letters w → map lower w = w.
Proof.
  induction 1 as [|ch w Hch _ IH]; simpl; [done|].
  by rewrite lower_lowercase, IH.
Qed.

(** ** [getpatterntuple] *)

Lemma ranks_inv_init : ranks_inv ∅ [] [].
Proof. split; try done. Qed.

Lemma ranks_inv_step letters tup pre letter :
  ranks_inv letters tup pre →
  match letters !! letter with
  | Some n => ranks_inv letters (tup ++ [n]) (pre ++ [letter])
  | None => ranks_inv (<[letter := size letters + 1]> letters)
              (tup ++ [size letters + 1]) (pre ++ [letter])
  end.
Proof.
  intros [Ht Hl Hi Hb]. destruct (letters !! letter) as [n|] eqn:E.
  - split; [|by rewrite !length_app, Hl|done|done].
    intros i c Hic. apply lookup_app_Some in Hic as [Hic|[Hge Hic]].
    + destruct (Ht i c Hic) as (m & ? & ?). exists m. split; [done|].
      by apply lookup_app_l_Some.
    + apply list_lookup_singleton_Some in Hic as [Hi0 <-].
      exists n. split; [done|]. rewrite lookup_app_r by lia.
      rewrite Hl. by replace (i - length pre) with 0 by lia.
  - split.
    + intros i c Hic. apply lookup_app_Some in Hic as [Hic|[Hge Hic]].
      * destruct (Ht i c Hic) as (m & Hm & ?). exists m. split.
        -- rewrite lookup_insert_ne; [done|]. intros ->. congruence.
        -- by apply lookup_app_l_Some.
      * apply list_lookup_singleton_Some in Hic as [Hi0 <-].
        exists (size letters + 1). rewrite lookup_insert_eq. split; [done|].
        rewrite lookup_app_r by lia.
        rewrite Hl. by replace (i - length pre) with 0 by lia.
    + by rewrite !length_app, Hl.
    + intros c c' n. rewrite !lookup_insert. repeat case_decide; subst; try done.
      * intros [= <-] Hc'. apply Hb in Hc'. lia.
      * intros Hc [= <-]. apply Hb in Hc. lia.
      * apply Hi.
    + intros c n. rewrite map_size_insert_None by done.
      rewrite lookup_insert. case_decide.
      * intros [= <-]. lia.
      * intros Hc. apply Hb in Hc. lia.
Qed.

Lemma getpatterntuple_loop_inv w letters tup pre :
  ranks_inv letters tup pre →
  ∃ letters', ranks_inv letters' (getpatterntuple_loop w letters tup) (pre ++ w).
Proof.
  revert letters tup pre. induction w as [|letter w IH]; intros letters tup pre Hinv; simpl.
  - exists letters. by rewrite app_nil_r.
  - pose proof (ranks_inv_step _ _ _ letter Hinv) as Hstep.
    replace (pre ++ letter :: w) with ((pre ++ [letter]) ++ w) by by rewrite <-app_assoc.
    destruct (letters !! letter); by apply IH.
Qed.

(** Two positions of the tuple are equal exactly when the characters are *)
Lemma getpatterntuple_loop_positions w :
  let t := getpatterntuple_loop w ∅ [] in
  length t = length w ∧
  ∀ i j a b, w !! i = Some a → w !! j = Some b → (t !! i = t !! j ↔ a = b).
Proof.
  intros t. destruct (getpatterntuple_loop_inv w ∅ [] [] ranks_inv_init) as [letters' [Ht Hl Hi _]].
  simpl in *. fold t in Ht, Hl. split; [done|].
  intros i j a b Ha Hb.
  destruct (Ht i a Ha) as (n & Hn & Hti), (Ht j b Hb) as (m & Hm & Htj).
  rewrite Hti, Htj. split.
  - intros [= <-]. eauto.
  - intros <-. congruence.
Qed.

Lemma getpatterntuple_loop_same_shape w1 w2 :
  getpatterntuple_loop w1 ∅ [] = getpatterntuple_loop w2 ∅ [] → same_shape w1 w2.
Proof.
  intros Heq.
  destruct (getpatterntuple_loop_positions w1) as [Hl1 H1].
  destruct (getpatterntuple_loop_positions w2) as [Hl2 H2].
  split; [congruence|].
  intros i j a b a' b' Ha Hb Ha' Hb'.
  rewrite <-(H1 i j a b Ha Hb), <-(H2 i j a' b' Ha' Hb'). by rewrite Heq.
Qed.

Lemma getpatterntuple_same_shape w1 w2 :
  letters w1 → letters w2 →
  getpatterntuple w1 = getpatterntuple w2 → same_shape w1 w2.
Proof.
  intros H1 H2. unfold getpatterntuple. rewrite !letters_lower by done.
  apply getpatterntuple_loop_same_shape.
Qed.

(** Renaming the letters by a function that is injective on them does not
    change the tuple. *)
Lemma getpatterntuple_loop_rename (f : ascii → ascii) (P : ascii → Prop) w :
  (∀ a b, P a → P b → f a = f b → a = b) →
  ∀ letters1 letters2 tup,
  Forall P w →
  size letters1 = size letters2 →
  (∀ a, P a → letters2 !! f a = letters1 !! a) →
  getpatterntuple_loop (map f w) letters2 tup = getpatterntuple_loop w letters1 tup.
Proof.
  intros Hinj. induction w as [|a w IH]; intros letters1 letters2 tup Hw Hsz Hrel; simpl; [done|].
  apply Forall_cons in Hw as [Ha Hw].
  rewrite (Hrel a Ha). destruct (letters1 !! a) as [n|] eqn:E.
  - by apply IH.
  - rewrite Hsz. apply IH; [done| |].
    + assert (letters2 !! f a = None) by by rewrite Hrel.
      rewrite !map_size_insert_None by done. lia.
    + intros b Hb. rewrite !lookup_insert. repeat case_decide; subst; try done.
      * exfalso. eauto.
      * by apply Hrel.
Qed.

Lemma same_shape_rename w1 w2 :
  same_shape w1 w2 →
  ∃ f, map f w1 = w2 ∧ ∀ a b, a ∈ w1 → b ∈ w1 → f a = f b → a = b.
Proof.
  intros [Hlen Hpos].
  set (f := λ a, match list_find (λ x, x = a) w1 with
                 | Some (k, _) => default a (w2 !! k)
                 | None => a
                 end).
  assert (Hf : ∀ i a a', w1 !! i = Some a → w2 !! i = Some a' → f a = a').
  { intros i a a' Ha Ha'. unfold f.
    destruct (list_find (λ x, x = a) w1) as [[k x]|] eqn:E.
    - apply list_find_Some in E as (Hk & -> & _).
      destruct (lookup_lt_is_Some_2 w2 k) as [b' Hb'].
      { rewrite <-Hlen. by eapply lookup_lt_Some. }
      rewrite Hb'. simpl. by apply (Hpos k i a a b' a').
    - apply list_find_None in E. rewrite Forall_forall in E.
      exfalso. apply (E a); [|done]. by eapply list_elem_of_lookup_2. }
  exists f. split.
  - apply list_eq. intros i. rewrite list_lookup_fmap.
    destruct (w1 !! i) as [a|] eqn:Ha; simpl.
    + destruct (lookup_lt_is_Some_2 w2 i) as [a' Ha'].
      { rewrite <-Hlen. by eapply lookup_lt_Some. }
      rewrite Ha'. f_equal. by eapply Hf.
    + symmetry. apply lookup_ge_None. rewrite <-Hlen. by apply lookup_ge_None.
  - intros a b Ha Hb Hfab.
    apply list_elem_of_lookup in Ha as [i Hi], Hb as [j Hj].
    destruct (lookup_lt_is_Some_2 w2 i) as [a' Ha'].
    { rewrite <-Hlen. by eapply lookup_lt_Some. }
    destruct (lookup_lt_is_Some_2 w2 j) as [b' Hb'].
    { rewrite <-Hlen. by eapply lookup_lt_Some. }
    rewrite (Hf i a a' Hi Ha'), (Hf j b b' Hj Hb') in Hfab.
    by apply (Hpos i j a b a' b').
Qed.

Lemma same_shape_sym w1 w2 : same_shape w1 w2 → same_shape w2 w1.
Proof.
  intros [Hlen Hpos]. split; [done|]. intros i j a b a' b' ????.
  symmetry. by eapply Hpos.
Qed.

Lemma map_inverse_on (f g : ascii → ascii) (w1 w2 : chars) :
  map f w1 = w2 → map g w2 = w1 → ∀ a, a ∈ w1 → g (f a) = a.
Proof.
  intros Hf Hg a Ha. apply list_elem_of_lookup in Ha as [i Hi].
  assert (w2 !! i = Some (f a)) as Hi2 by by rewrite <-Hf, list_lookup_fmap, Hi.
  assert (w1 !! i = Some (g (f a))) as Hi1 by by rewrite <-Hg, list_lookup_fmap, Hi2.
  congruence.
Qed.

Lemma getpatterntuple_loop_bijection w1 w2 :
  getpatterntuple_loop w1 ∅ [] = getpatterntuple_loop w2 ∅ [] ↔
  ∃ f g, letter_bijection f g w1 w2.
Proof.
  split.
  - intros Hsh%getpatterntuple_loop_same_shape.
    destruct (same_shape_rename w1 w2 Hsh) as (f & Hf & _).
    destruct (same_shape_rename w2 w1 (same_shape_sym _ _ Hsh)) as (g & Hg & _).
    exists f, g. repeat split; [done|done|..]; by eapply map_inverse_on.
  - intros (f & g & Hf & Hg & Hgf & Hfg). rewrite <-Hf.
    symmetry. apply (getpatterntuple_loop_rename f (λ a, a ∈ w1)); [|by apply Forall_forall|done|done].
    intros a b Ha Hb Hab. rewrite <-(Hgf a), <-(Hgf b) by done. by rewrite Hab.
Qed.

(** For arbitrary strings the letters are those of the lower-case forms,
    which is what [getpatterntuple] scans. *)
Lemma signature_purity_lower (w1 w2 : chars) :
  getpatterntuple w1 = getpatterntuple w2 ↔
  ∃ f g, letter_bijection f g (map lower w1) (map lower w2).
Proof. apply getpatterntuple_loop_bijection. Qed.

(** C6. Signature purity: two normalised words (more generally, two strings
    without upper-case letters, [w.lower() == w]) have the same pattern
    tuple exactly when there is a bijection between the letters of the one
    and the letters of the other which, applied letter for letter to the
    first word, gives the second. *)
Theorem signature_purity (w1 w2 : chars) :
  map lower w1 = w1 → map lower w2 = w2 →
  getpatterntuple w1 = getpatterntuple w2 ↔ ∃ f g, letter_bijection f g w1 w2.
Proof.
  intros H1 H2. unfold getpatterntuple. rewrite H1, H2.
  apply getpatterntuple_loop_bijection.
Qed.

Lemma signature_purity_witness :
  map lower (str "llama") = str "llama" ∧ map lower (str "eerie") = str "eerie" ∧
  (getpatterntuple (str "llama") = getpatterntuple (str "eerie") ↔
   ∃ f g, letter_bijection f g (str "llama") (str "eerie")).
Proof.
  split; [reflexivity|]. split; [reflexivity|].
  apply (signature_purity (str "llama") (str "eerie")); reflexivity.
Defined.

(** ** The regular expression of [getregex] *)

Lemma re_parse_class vs : 
  letters vs → ∀ acc rest,
  re_parse (Some acc) (vs ++ "]" :: rest) =
    match acc ++ vs with
    | [] => None
    | cs => (ReNotIn cs ::.) <$> re_parse None rest
    end.
Proof.
  induction 1 as [|v vs Hv _ IH]; intros acc rest; simpl.
  - rewrite app_nil_r. by destruct acc.
  - destruct (lowercase_not_special v Hv) as (_ & _ & _ & Hne & _).
    rewrite bool_decide_eq_false_2 by done.
    apply in_lowercase_elem_of in Hv. rewrite Hv.
    rewrite IH. by rewrite <-app_assoc.
Qed.

Lemma values_nonempty (subs : dict) : 0 < size subs → values subs ≠ [].
Proof.
  unfold values. intros Hsz Hnil. apply fmap_nil_inv in Hnil.
  apply map_to_list_empty_iff in Hnil. subst. rewrite map_size_empty in Hsz. lia.
Qed.

Lemma elem_of_values (subs : dict) p : p ∈ values subs ↔ ∃ c, subs !! c = Some p.
Proof.
  unfold values. rewrite list_elem_of_fmap. split.
  - intros ([c q] & -> & Hin). exists c. by apply elem_of_map_to_list in Hin.
  - intros [c Hc]. exists (c, p). split; [done|]. by apply elem_of_map_to_list.
Qed.

Lemma getregex_compiled cipherword subs :
  letters (values subs) →
  getregex cipherword subs = Some (map (atom_of subs) cipherword).
Proof.
  intros Hv. unfold getregex. cbn [str list_ascii_of_string app re_compile].
  induction cipherword as [|ch cw IH]; [done|].
  cbn [map concat]. unfold atom_of at 1.
  destruct (subs !! ch) as [p|] eqn:E.
  - assert (p ∈ ascii_lowercase) as Hp.
    { unfold letters in Hv. rewrite Forall_forall in Hv. apply Hv, elem_of_values. eauto. }
    destruct (lowercase_not_special p Hp) as (? & ? & ? & _).
    cbn [app re_parse]. rewrite !bool_decide_eq_false_2 by done.
    apply in_lowercase_elem_of in Hp. rewrite Hp. by rewrite IH.
  - case_bool_decide as Hsz.
    + cbn [app re_parse].
      rewrite !bool_decide_eq_false_2 by done. rewrite bool_decide_eq_true_2 by done.
      rewrite <-!app_assoc. cbn [app].
      rewrite re_parse_class by done. cbn [app].
      destruct (values subs) eqn:Ev; [by apply values_nonempty in Hsz|].
      by rewrite IH.
    + cbn [app re_parse]. rewrite !bool_decide_eq_false_2 by done.
      rewrite bool_decide_eq_true_2 by done. by rewrite IH.
Qed.

Lemma re_atom_match_admits subs c p :
  p ∈ ascii_lowercase →
  re_atom_match (atom_of subs c) p = admits_at subs c p.
Proof.
  intros Hp. unfold atom_of, admits_at. destruct (subs !! c) as [q|]; [done|].
  case_bool_decide as Hsz; simpl.
  - apply eq_true_iff_eq. rewrite negb_true_iff, bool_decide_eq_false, bool_decide_eq_true. done.
  - destruct (lowercase_not_special p Hp) as (_ & _ & _ & _ & Hnl & _).
    rewrite bool_decide_eq_false_2 by done. symmetry. apply bool_decide_eq_true.
    assert (subs = ∅) as -> by (apply map_size_empty_iff; lia).
    unfold values. rewrite map_to_list_empty. set_solver.
Qed.

Lemma re_match_admits subs cipherword plainword :
  letters plainword →
  re_match (map (atom_of subs) cipherword) plainword = admits cipherword plainword subs.
Proof.
  intros Hp. revert cipherword. unfold admits.
  induction Hp as [|p pw Hp Hpw IH]; intros [|c cw]; try done.
  - cbn [map re_match]. destruct (lowercase_not_special p Hp) as (_ & _ & _ & _ & Hnl & _).
    rewrite (bool_decide_eq_false_2 (p = newline)) by done. by destruct pw.
  - cbn [map re_match zip zip_with forallb fst snd length].
    rewrite IH, (re_atom_match_admits _ _ _ Hp).
    destruct (admits_at subs c p); simpl; [|by rewrite andb_false_r].
    f_equal. apply bool_decide_ext. lia.
Qed.

(** ** The coroutines send what the functions give *)

Section refinement.
Context {St : Type} (f : dict → St → option St).

Lemma fold_opt_app ds1 ds2 s :
  fold_opt f (ds1 ++ ds2) s = fold_opt f ds1 s ≫= fold_opt f ds2.
Proof.
  revert s. induction ds1 as [|d ds1 IH]; intros s; simpl; [done|].
  destruct (f d s); simpl; [apply IH|done].
Qed.

Lemma assign_loop_extend cipherword plainword newguess :
  ∀ n k d (σ : store St),
  k + n = length cipherword → length cipherword = length plainword →
  heap σ !! newguess = Some d →
  assign_loop (seq k n) cipherword plainword newguess σ =
    Some (Store (<[newguess :=
                    foldl (λ d cp, <[cp.1 := cp.2]> d) d
                      (zip (drop k cipherword) (drop k plainword))]> (heap σ))
                (sink σ)).
Proof.
  induction n as [|n IH]; intros k d σ Hk Hlen Hd; simpl.
  - rewrite !drop_ge by lia. simpl. rewrite list_insert_id by done. by destruct σ.
  - destruct (lookup_lt_is_Some_2 cipherword k) as [c Hc]; [lia|].
    destruct (lookup_lt_is_Some_2 plainword k) as [p Hp]; [lia|].
    rewrite Hc, Hp. simpl. unfold setitem. rewrite Hd. simpl.
    rewrite (IH (S k) (<[c := p]> d)); [|lia|done|].
    + simpl. rewrite list_insert_insert_eq.
      by rewrite (drop_S _ _ _ Hc), (drop_S _ _ _ Hp).
    + simpl. apply list_lookup_insert_eq. by eapply lookup_lt_Some.
Qed.

Lemma guesser_loop_implements T F P Q cipherword patterns guess d :
  implements f T F P Q →
  letters (values d) → Forall letters patterns →
  (∀ pw, pw ∈ patterns → admits cipherword pw d = true →
     P (extend cipherword pw d) ∧ Q (extend cipherword pw d)) →
  ∀ σ, heap σ !! guess = Some d →
  match fold_opt f (stage_out cipherword patterns d ≫= F) (sink σ) with
  | Some s' => ∃ h', guesser_loop (map (atom_of d) cipherword) cipherword
                       patterns T guess σ = Some (Store (heap σ ++ h') s')
                     ∧ Forall Q h'
  | None => guesser_loop (map (atom_of d) cipherword) cipherword
              patterns T guess σ = None
  end.
Proof.
  intros HT Hd Hpats. induction Hpats as [|pw pats Hpw Hpats IH]; intros HP σ Hg.
  - simpl. exists []. rewrite app_nil_r. by destruct σ.
  - cbn [guesser_loop]. rewrite re_match_admits by done.
    unfold stage_out. cbn [mbind list_bind]. fold (stage_out cipherword pats d).
    destruct (admits cipherword pw d) eqn:Hadm.
    + cbn [app mbind list_bind]. rewrite fold_opt_app.
      unfold copy. rewrite Hg. cbn [mbind option_bind].
      apply andb_true_iff in Hadm as Hadm'. destruct Hadm' as [Hlen%bool_decide_eq_true _].
      rewrite (assign_loop_extend _ _ _ _ 0 d); [|done|done|]; last first.
      { simpl. by rewrite lookup_app_r, Nat.sub_diag by done. }
      cbn [heap sink mbind option_bind]. rewrite !drop_0.
      fold (extend cipherword pw d).
      assert (<[length (heap σ) := extend cipherword pw d]> (heap σ ++ [d])
              = heap σ ++ [extend cipherword pw d]) as ->.
      { rewrite insert_app_r_alt, Nat.sub_diag by done. done. }
      set (σ2 := Store (heap σ ++ [extend cipherword pw d]) (sink σ)).
      destruct (HP pw ltac:(left) Hadm) as [HPe HQe].
      pose proof (HT (length (heap σ)) σ2 (extend cipherword pw d)) as HT2.
      simpl in HT2. rewrite lookup_app_r, Nat.sub_diag in HT2 by done.
      specialize (HT2 eq_refl HPe).
      destruct (fold_opt f (F (extend cipherword pw d)) (sink σ)) as [s1|]; simpl.
      * destruct HT2 as (h1 & -> & Hh1). simpl.
        specialize (IH (λ pw' Hin, HP pw' (list_elem_of_further _ _ _ Hin))
                      (Store ((heap σ ++ [extend cipherword pw d]) ++ h1) s1)).
        simpl in IH.
        specialize (IH (lookup_app_l_Some _ _ _ _ (lookup_app_l_Some _ _ _ _ Hg))).
        destruct (fold_opt f _ s1).
        -- destruct IH as (h' & -> & Hh'). exists ([extend cipherword pw d] ++ h1 ++ h').
           split; [by rewrite <-!app_assoc|].
           apply Forall_app. split; [by apply Forall_singleton|by apply Forall_app].
        -- done.
      * by rewrite HT2.
    + simpl. apply IH; [|done]. intros pw' Hin. apply HP. by right.
Qed.

Lemma guesser_implements T F P P' Q cipherword patterns :
  implements f T F P Q →
  (∀ d, P' d → letters (values d)) → Forall letters patterns →
  (∀ d pw, P' d → pw ∈ patterns → admits cipherword pw d = true →
     P (extend cipherword pw d) ∧ Q (extend cipherword pw d)) →
  implements f (guesser cipherword patterns T)
    (λ d, stage_out cipherword patterns d ≫= F) P' Q.
Proof.
  intros HT Hv Hpats HP guess σ d Hg HP'. unfold guesser.
  rewrite Hg. cbn [mbind option_bind]. rewrite getregex_compiled by auto.
  cbn [mbind option_bind]. eapply guesser_loop_implements; eauto.
Qed.

Lemma reader_implements P Q : implements f (reader f) (λ d, [d]) P Q.
Proof.
  intros guess σ d Hg _. unfold reader. rewrite Hg. simpl.
  destruct (f d (sink σ)); simpl; [|done]. exists []. by rewrite app_nil_r.
Qed.
End refinement.

(** ** Mappings as relations *)

Lemma elem_of_zip_pairs (cw pw : chars) c p : (c, p) ∈ zip cw pw ↔ pairs cw pw c p.
Proof.
  unfold pairs. rewrite list_elem_of_lookup. split.
  - intros [i Hi]. apply lookup_zip_with_Some in Hi as (c' & p' & [= <- <-] & ? & ?). eauto.
  - intros (i & Hc & Hp). exists i. apply lookup_zip_with_Some. eauto.
Qed.

Lemma admits_at_spec guess c p : admits_at guess c p = true ↔ admissible_at guess c p.
Proof.
  unfold admits_at, admissible_at. destruct (guess !! c) as [q|] eqn:E.
  - rewrite bool_decide_eq_true. split; [intros ->; by left|].
    intros [[= ->]|[? _]]; done.
  - rewrite bool_decide_eq_true, elem_of_values. split.
    + intros Hno. right. split; [done|]. intros c' p' Hc' ->. eauto.
    + intros [?|[_ Hno]]; [done|]. intros [c' Hc']. by eapply Hno.
Qed.

Lemma admits_spec cw pw guess :
  admits cw pw guess = true ↔
  length cw = length pw ∧ ∀ c p, pairs cw pw c p → admissible_at guess c p.
Proof.
  unfold admits. rewrite andb_true_iff, bool_decide_eq_true, forallb_forall.
  apply and_iff_compat_l. split.
  - intros H c p Hcp. apply admits_at_spec, (H (c, p)).
    by apply list_elem_of_In, elem_of_zip_pairs.
  - intros H [c p] Hin. apply admits_at_spec, H.
    by apply elem_of_zip_pairs, list_elem_of_In.
Qed.

Lemma admissible_cross guess cw pw :
  injective guess →
  (∀ c p, pairs cw pw c p → admissible_at guess c p) ↔ cross guess cw pw.
Proof.
  intros Hinj. split.
  - intros H c p c' q Hcp Hq. destruct (H c p Hcp) as [Hc|[Hc Hno]].
    + split; [intros <-; congruence|intros <-; eauto].
    + split; [intros <-; congruence|intros <-]. by destruct (Hno c' p Hq).
  - intros H c p Hcp. unfold admissible_at. destruct (guess !! c) as [q|] eqn:E.
    + left. f_equal. symmetry. by apply (H c p c q).
    + right. split; [done|]. intros c' p' Hc' ->.
      assert (c = c') by by apply (H c p' c' p' Hcp Hc'). congruence.
Qed.

Lemma same_shape_pairs cw pw c p c' p' :
  same_shape cw pw → pairs cw pw c p → pairs cw pw c' p' → (c = c' ↔ p = p').
Proof. intros [_ H] (i & ? & ?) (j & ? & ?). by eapply H. Qed.

(** *** Lookups in an extended mapping *)

Lemma foldl_insert_notin (l : list (ascii * ascii)) (d : dict) c :
  c ∉ l.*1 → foldl (λ d cp, <[cp.1 := cp.2]> d) d l !! c = d !! c.
Proof.
  revert d. induction l as [|[c0 p0] l IH]; intros d Hc; simpl; [done|].
  rewrite fmap_cons, not_elem_of_cons in Hc. destruct Hc as [Hne Hc].
  rewrite IH by done. by apply lookup_insert_ne.
Qed.

Lemma foldl_insert_in (l : list (ascii * ascii)) (d : dict) c p :
  (c, p) ∈ l → (∀ p', (c, p') ∈ l → p' = p) →
  foldl (λ d cp, <[cp.1 := cp.2]> d) d l !! c = Some p.
Proof.
  revert d. induction l as [|[c0 p0] l IH]; intros d Hin Hfun; simpl.
  - by apply elem_of_nil in Hin.
  - destruct (decide ((c, p) ∈ l)) as [Hl|Hl].
    + apply IH; [done|]. intros p' Hp'. apply Hfun. by right.
    + apply elem_of_cons in Hin as [[= <- <-]|]; [|done].
      rewrite foldl_insert_notin; [by rewrite lookup_insert_eq|].
      intros ([c' p'] & ? & Hin')%list_elem_of_fmap. simpl in *. subst c'.
      rewrite (Hfun p') in Hin' by by right. done.
Qed.

Lemma extend_lookup cw pw guess c p :
  same_shape cw pw → cross guess cw pw →
  extend cw pw guess !! c = Some p ↔ guess !! c = Some p ∨ pairs cw pw c p.
Proof.
  intros Hsh Hcross. unfold extend.
  assert (Hfun : ∀ p1, (c, p1) ∈ zip cw pw → ∀ p2, (c, p2) ∈ zip cw pw → p2 = p1).
  { intros p1 H1%elem_of_zip_pairs p2 H2%elem_of_zip_pairs.
    by apply (same_shape_pairs cw pw c p2 c p1 Hsh). }
  destruct (decide (c ∈ (zip cw pw).*1)) as [Hin|Hin].
  - apply list_elem_of_fmap in Hin as ([c' p1] & ? & Hin). simpl in *. subst c'.
    rewrite (foldl_insert_in _ _ c p1) by eauto. split.
    + intros [= <-]. right. by apply elem_of_zip_pairs.
    + intros [Hg|Hp%elem_of_zip_pairs]; f_equal; [|by eapply Hfun].
      apply elem_of_zip_pairs in Hin. by apply (Hcross c p1 c p).
  - rewrite foldl_insert_notin by done. split; [by left|]. intros [?|Hp]; [done|].
    destruct Hin. apply list_elem_of_fmap. exists (c, p). split; [done|].
    by apply elem_of_zip_pairs.
Qed.

Lemma extend_lookup_weak cw pw guess c p :
  extend cw pw guess !! c = Some p → guess !! c = Some p ∨ pairs cw pw c p.
Proof.
  unfold extend. rewrite <-elem_of_zip_pairs. generalize (zip cw pw). intros l.
  revert guess. induction l as [|[c0 p0] l IH]; intros d; simpl; [by left|].
  intros [Hd|Hl]%IH; [|right; by right].
  rewrite lookup_insert in Hd. case_decide; [|by left].
  injection Hd as <-. subst. right. by left.
Qed.

(** *** Injectivity is kept by a stage *)

Lemma extend_injective cw pw guess :
  injective guess → same_shape cw pw → cross guess cw pw →
  injective (extend cw pw guess).
Proof.
  intros Hinj Hsh Hcross c c' p.
  rewrite !extend_lookup by done. intros [H1|H1] [H2|H2].
  - by eapply Hinj.
  - symmetry. by apply (proj2 (Hcross c' p c p H2 H1)).
  - by apply (proj2 (Hcross c p c' p H1 H2)).
  - by apply (proj2 (same_shape_pairs cw pw c p c' p Hsh H1 H2)).
Qed.

Lemma pairs_letters cw pw c p :
  letters cw → letters pw → pairs cw pw c p →
  c ∈ ascii_lowercase ∧ p ∈ ascii_lowercase.
Proof.
  unfold letters. rewrite !Forall_forall. intros Hc Hp (i & Hi & Hj).
  split; [apply Hc|apply Hp]; by eapply list_elem_of_lookup_2.
Qed.

Lemma extend_letter_map cw pw guess :
  letter_map guess → letters cw → letters pw → letter_map (extend cw pw guess).
Proof.
  intros Hd Hc Hp c p [H|H]%extend_lookup_weak; [by apply Hd|].
  by apply (pairs_letters cw pw).
Qed.

Lemma letter_map_values d : letter_map d → letters (values d).
Proof.
  intros Hd. apply Forall_forall. intros p [c Hc]%elem_of_values. by apply (Hd c p).
Qed.

Lemma letter_map_empty : letter_map ∅.
Proof. intros c p. by rewrite lookup_empty. Qed.

Lemma injective_empty : injective ∅.
Proof. intros c c' p. by rewrite lookup_empty. Qed.

Lemma elem_of_stage_out cw pats d m :
  m ∈ stage_out cw pats d ↔
  ∃ pw, pw ∈ pats ∧ admits cw pw d = true ∧ m = extend cw pw d.
Proof.
  unfold stage_out. rewrite list_elem_of_bind. split.
  - intros (pw & Hm & Hpw). exists pw. destruct (admits cw pw d).
    + apply list_elem_of_singleton in Hm. done.
    + by apply elem_of_nil in Hm.
  - intros (pw & Hpw & Hadm & ->). exists pw. rewrite Hadm. split; [|done].
    by apply list_elem_of_singleton.
Qed.

Lemma admits_cross cw pw d :
  injective d → admits cw pw d = true → cross d cw pw.
Proof. intros Hinj [_ H]%admits_spec. by apply admissible_cross. Qed.

Lemma cross_admits cw pw d :
  injective d → same_shape cw pw → cross d cw pw → admits cw pw d = true.
Proof.
  intros Hinj [Hlen _] H. apply admits_spec. split; [done|]. by apply admissible_cross.
Qed.

Lemma stage_out_injective cw pats d m :
  injective d → Forall (same_shape cw) pats → m ∈ stage_out cw pats d → injective m.
Proof.
  intros Hinj Hsh (pw & Hpw & Hadm & ->)%elem_of_stage_out.
  rewrite Forall_forall in Hsh. apply extend_injective; auto using admits_cross.
Qed.

Lemma chain_out_injective stages :
  Forall shape_stage stages →
  ∀ d m, injective d → m ∈ chain_out stages d → injective m.
Proof.
  induction 1 as [|[cw pats] stages Hst _ IH]; intros d m Hinj; simpl.
  - by intros ->%list_elem_of_singleton.
  - intros (d' & Hm & Hd')%list_elem_of_bind. apply (IH d'); [|done].
    by eapply stage_out_injective.
Qed.

Lemma option_ext {A} (o1 o2 : option A) :
  (∀ v, o1 = Some v ↔ o2 = Some v) → o1 = o2.
Proof.
  intros H. destruct o1 as [a|], o2 as [b|]; try done.
  - by apply H.
  - by destruct (proj1 (H a) eq_refl).
  - by destruct (proj2 (H b) eq_refl).
Qed.

(** Two stages one after the other accept the same pairs of candidates, and
    derive the same mapping from them, in either order. *)
Lemma stage_swap_1 x px y py d m :
  injective d → Forall (same_shape x) px → Forall (same_shape y) py →
  (∃ mid, mid ∈ stage_out x px d ∧ m ∈ stage_out y py mid) →
  (∃ mid, mid ∈ stage_out y py d ∧ m ∈ stage_out x px mid).
Proof.
  intros Hinj Hx Hy (mid & Hmid & Hm).
  rewrite Forall_forall in Hx, Hy.
  apply elem_of_stage_out in Hmid as (p & Hp & Hadmp & ->).
  apply elem_of_stage_out in Hm as (q & Hq & Hadmq & ->).
  pose proof (Hx p Hp) as Hshp. pose proof (Hy q Hq) as Hshq.
  pose proof (admits_cross _ _ _ Hinj Hadmp) as Hcp.
  pose proof (extend_injective _ _ _ Hinj Hshp Hcp) as Hinj'.
  pose proof (admits_cross _ _ _ Hinj' Hadmq) as Hcq.
  assert (cross d y q) as Hcq0.
  { intros c a c' b Hca Hb. apply (Hcq c a c' b Hca).
    apply extend_lookup; auto. }
  pose proof (extend_injective _ _ _ Hinj Hshq Hcq0) as Hinj''.
  assert (cross (extend y q d) x p) as Hcp'.
  { intros c a c' b Hca [Hb|Hb]%extend_lookup; [by apply (Hcp c a c' b)| |done..].
    symmetry. split; intros; symmetry; apply (Hcq c' b c a Hb); try done;
      apply extend_lookup; auto. }
  exists (extend y q d). split.
  - apply elem_of_stage_out. exists q. auto using cross_admits.
  - apply elem_of_stage_out. exists p. split; [done|]. split; [by apply cross_admits|].
    apply map_eq. intros c. apply option_ext. intros v.
    rewrite !extend_lookup by done. tauto.
Qed.

Lemma stage_swap x px y py d m :
  injective d → Forall (same_shape x) px → Forall (same_shape y) py →
  (∃ mid, mid ∈ stage_out x px d ∧ m ∈ stage_out y py mid) ↔
  (∃ mid, mid ∈ stage_out y py d ∧ m ∈ stage_out x px mid).
Proof. intros. split; by apply stage_swap_1. Qed.

(** The mappings that leave a chain do not depend on the order of its
    stages. *)
Lemma chain_out_permutation stages1 stages2 :
  stages1 ≡ₚ stages2 → Forall shape_stage stages1 →
  ∀ d m, injective d → m ∈ chain_out stages1 d ↔ m ∈ chain_out stages2 d.
Proof.
  induction 1 as [|[cw pats] l l' Hperm IH|[x px] [y py] l|l1 l2 l3 H12 IH12 H23 IH23];
    intros Hwf d m Hinj.
  - done.
  - apply Forall_cons in Hwf as [Hst Hwf]. simpl. rewrite !list_elem_of_bind.
    split; intros (d' & Hm & Hd'); exists d'; (split; [|done]);
      apply (IH Hwf d' m); try done; by eapply stage_out_injective.
  - apply Forall_cons in Hwf as [Hy Hwf]. apply Forall_cons in Hwf as [Hx Hwf].
    simpl. rewrite !list_elem_of_bind.
    split.
    + intros (d1 & (d2 & Hm & Hd2)%list_elem_of_bind & Hd1).
      destruct (stage_swap_1 y py x px d d2 Hinj Hy Hx) as (mid & Hmid & Hd2'); [eauto|].
      exists mid. split; [|done]. apply list_elem_of_bind. eauto.
    + intros (d1 & (d2 & Hm & Hd2)%list_elem_of_bind & Hd1).
      destruct (stage_swap_1 x px y py d d2 Hinj Hx Hy) as (mid & Hmid & Hd2'); [eauto|].
      exists mid. split; [|done]. apply list_elem_of_bind. eauto.
  - rewrite (IH12 Hwf d m Hinj). apply IH23; [|done]. by rewrite <-H12.
Qed.

(** ** The main program *)

Lemma letters_cipherlist text : Forall letters (cipherlist text).
Proof.
  unfold cipherlist. apply Forall_forall. intros w [_ Hw]%list_elem_of_filter.
  apply list_elem_of_fmap in Hw as (? & -> & _). apply letters_scrubstring.
Qed.

Lemma patterns_init_ok cl : index_ok (patterns_init cl).
Proof.
  unfold patterns_init.
  assert (∀ m : index, index_ok m →
    index_ok (foldl (λ patterns word, <[getpatterntuple word := []]> patterns) m cl)) as H.
  { induction cl as [|w cl IH]; intros m Hm; simpl; [done|]. apply IH.
    intros tup ws. rewrite lookup_insert. case_decide; [by intros [= <-]|apply Hm]. }
  apply H. intros tup ws. by rewrite lookup_empty.
Qed.

Lemma patterns_add_ok patterns line : index_ok patterns → index_ok (patterns_add patterns line).
Proof.
  intros Hok. unfold patterns_add.
  destruct (patterns !! getpatterntuple (scrubstring line)) as [ws|] eqn:E; [|done].
  case_bool_decide; [done|]. intros tup ws'. rewrite lookup_insert.
  case_decide; [|apply Hok]. intros [= <-]. subst tup. apply Forall_app. split; [by apply Hok|].
  apply Forall_singleton. split; [apply letters_scrubstring|done].
Qed.

Lemma load_patterns_ok cl dictfile : index_ok (load_patterns cl dictfile).
Proof.
  unfold load_patterns. generalize (patterns_init_ok cl). generalize (patterns_init cl).
  induction dictfile as [|line dictfile IH]; intros m Hm; simpl; [done|].
  by apply IH, patterns_add_ok.
Qed.

(** No [KeyError] in [patterns[getpatterntuple(word)]]. *)
Lemma patterns_init_present cl w :
  w ∈ cl → is_Some (patterns_init cl !! getpatterntuple w).
Proof.
  unfold patterns_init. intros Hw.
  assert (∀ m : index, w ∈ cl ∨ is_Some (m !! getpatterntuple w) →
    is_Some (foldl (λ patterns word, <[getpatterntuple word := []]> patterns) m cl
             !! getpatterntuple w)) as H.
  { clear Hw. induction cl as [|w' cl IH]; intros m; simpl.
    - intros [?%elem_of_nil|?]; done.
    - intros [[->|?]%elem_of_cons|Hm]; apply IH; auto; right.
      + rewrite lookup_insert_eq. eauto.
      + rewrite lookup_insert. case_decide; eauto. }
  apply H. by left.
Qed.

Lemma patterns_add_present patterns line tup :
  is_Some (patterns !! tup) → is_Some (patterns_add patterns line !! tup).
Proof.
  intros Hs. unfold patterns_add.
  destruct (patterns !! getpatterntuple (scrubstring line)) as [ws|] eqn:E; [|done].
  case_bool_decide; [done|]. rewrite lookup_insert. case_decide; eauto.
Qed.

Lemma candidates_present cl dictfile w :
  w ∈ cl → is_Some (load_patterns cl dictfile !! getpatterntuple w).
Proof.
  intros Hw%patterns_init_present. unfold load_patterns. revert Hw.
  generalize (patterns_init cl).
  induction dictfile as [|line dictfile IH]; intros m Hm; simpl; [done|].
  by apply IH, patterns_add_present.
Qed.

Lemma candidates_ok patterns w :
  index_ok patterns →
  Forall (λ pw, letters pw ∧ getpatterntuple pw = getpatterntuple w)
    (candidates patterns w).
Proof.
  intros Hok. unfold candidates. rewrite lookup_total_alt.
  destruct (patterns !! getpatterntuple w) as [ws|] eqn:E; simpl; [by eapply Hok|done].
Qed.

Lemma the_stages_wf order patterns :
  Forall letters order → index_ok patterns →
  Forall wf_stage (the_stages order patterns) ∧
  Forall shape_stage (the_stages order patterns).
Proof.
  intros Hord Hok. unfold the_stages. rewrite !Forall_reverse, !Forall_fmap.
  split; eapply Forall_impl; try apply Hord; intros w Hw; simpl.
  - split; [done|]. simpl. eapply Forall_impl; [by apply candidates_ok|]. by intros ? [? _].
  - unfold shape_stage. simpl. eapply Forall_impl; [by apply candidates_ok|].
    intros pw [Hpw Htup]. by apply getpatterntuple_same_shape.
Qed.

(** *** Sorting keeps the words *)

Lemma sort_insert_perm cmp x l : sort_insert cmp x l ≡ₚ x :: l.
Proof.
  induction l as [|y l IH]; simpl; [done|]. case_bool_decide; [done|].
  rewrite IH. apply Permutation_swap.
Qed.

Lemma sort_perm cmp l : sort cmp l ≡ₚ l.
Proof.
  unfold sort. induction l as [|x l IH]; simpl; [done|].
  by rewrite sort_insert_perm, IH.
Qed.

(** The sorted list goes from the words with the most candidates to those
    with the fewest. *)
Lemma sort_insert_sorted patterns x l :
  StronglySorted (λ a b, (cmp patterns a b ≤ 0)%Z) l →
  StronglySorted (λ a b, (cmp patterns a b ≤ 0)%Z) (sort_insert (cmp patterns) x l).
Proof.
  induction 1 as [|y l Hl IH Hy]; simpl.
  - by repeat constructor.
  - case_bool_decide as Hxy.
    + constructor; [by constructor|]. constructor; [done|].
      eapply Forall_impl; [exact Hy|]. unfold cmp in *. intros z Hz. simpl in Hz. lia.
    + constructor; [done|]. rewrite sort_insert_perm. constructor; [|done].
      unfold cmp in *. lia.
Qed.

Lemma sort_sorted patterns l :
  StronglySorted
    (λ a b, length (candidates patterns b) ≤ length (candidates patterns a))
    (sort (cmp patterns) l).
Proof.
  assert (StronglySorted (λ a b, (cmp patterns a b ≤ 0)%Z) (sort (cmp patterns) l)) as H.
  { unfold sort. induction l as [|x l IH]; simpl; [constructor|].
    by apply sort_insert_sorted. }
  induction H as [|x l' _ IH Hx]; constructor; [done|].
  eapply Forall_impl; [exact Hx|]. unfold cmp. intros y Hy. simpl in Hy. lia.
Qed.

Lemma the_stages_perm order1 order2 patterns :
  order1 ≡ₚ order2 → the_stages order1 patterns ≡ₚ the_stages order2 patterns.
Proof. intros H. unfold the_stages. by rewrite !reverse_Permutation, H. Qed.

(** *** The chain of coroutines sends what the chain of functions gives *)

Lemma chain_snoc {St} order w patterns (target : coroutine St) :
  chain (order ++ [w]) patterns target =
  guesser w (candidates patterns w) (chain order patterns target).
Proof. unfold chain. by rewrite foldl_app. Qed.

Lemma the_stages_snoc order w patterns :
  the_stages (order ++ [w]) patterns = (w, candidates patterns w) :: the_stages order patterns.
Proof. unfold the_stages. by rewrite fmap_app, reverse_app. Qed.

Lemma chain_implements {St} (f : dict → St → option St) order patterns :
  Forall wf_stage (the_stages order patterns) →
  Forall shape_stage (the_stages order patterns) →
  implements f (chain order patterns (reader f))
    (chain_out (the_stages order patterns)) good_map good_map.
Proof.
  induction order as [|w order IH] using rev_ind; intros Hwf Hsh.
  - apply reader_implements.
  - rewrite the_stages_snoc in Hwf, Hsh |- *. rewrite chain_snoc.
    apply Forall_cons in Hwf as [[Hw Hpats] Hwf]. simpl in Hw, Hpats.
    apply Forall_cons in Hsh as [Hshw Hsh]. unfold shape_stage in Hshw. simpl in Hshw.
    cbn [chain_out].
    apply (guesser_implements f _ _ good_map good_map); auto.
    + intros d [Hd _]. by apply letter_map_values.
    + intros d pw [Hd Hinj] Hpw Hadm. rewrite Forall_forall in Hpats, Hshw.
      assert (good_map (extend w pw d)); [|done]. split.
      * apply extend_letter_map; auto.
      * apply extend_injective; auto using admits_cross.
Qed.

Lemma good_map_empty : good_map ∅.
Proof. split; [apply letter_map_empty|apply injective_empty]. Qed.

Lemma send_empty_reader {St} (f : dict → St → option St) order patterns s :
  Forall letters order → index_ok patterns →
  match fold_opt f (chain_out (the_stages order patterns) ∅) s with
  | Some s' => ∃ h', send_empty order patterns (reader f) s = Some (Store ([∅] ++ h') s')
                     ∧ Forall good_map h'
  | None => send_empty order patterns (reader f) s = None
  end.
Proof.
  intros Hord Hok. destruct (the_stages_wf order patterns Hord Hok) as [Hwf Hsh].
  apply (chain_implements f order patterns Hwf Hsh 0 (Store [∅] s) ∅);
    [done|apply good_map_empty].
Qed.

Lemma chain_out_good stages :
  Forall wf_stage stages → Forall shape_stage stages →
  ∀ d m, good_map d → m ∈ chain_out stages d → good_map m.
Proof.
  induction 1 as [|[cw pats] stages [Hcw Hpats] _ IH]; intros Hsh d m Hd; simpl.
  - by intros ->%list_elem_of_singleton.
  - apply Forall_cons in Hsh as [Hshw Hsh]. unfold shape_stage in Hshw. simpl in *.
    intros (d' & Hm & Hd')%list_elem_of_bind. apply (IH Hsh d'); [|done].
    apply elem_of_stage_out in Hd' as (pw & Hpw & Hadm & ->).
    destruct Hd as [Hd Hinj]. rewrite Forall_forall in Hpats, Hshw. split.
    + apply extend_letter_map; auto.
    + apply extend_injective; auto using admits_cross.
Qed.

Lemma letters_sorted_cipherlist text dictfile :
  Forall letters (sorted_cipherlist text dictfile).
Proof.
  unfold sorted_cipherlist. rewrite sort_perm. apply letters_cipherlist.
Qed.

Lemma fold_opt_recorder ds seen :
  fold_opt (λ d seen, Some (seen ++ [d])) ds seen = Some (seen ++ ds).
Proof.
  revert seen. induction ds as [|d ds IH]; intros seen; simpl.
  - by rewrite app_nil_r.
  - rewrite IH. by rewrite <-app_assoc.
Qed.

Lemma observed_chain_out text dictfile :
  observed text dictfile = Some (chain_out (run_stages text dictfile) ∅).
Proof.
  unfold observed, run, recorder.
  pose proof (send_empty_reader (λ d seen, Some (seen ++ [d]))
    (sorted_cipherlist text dictfile) (load_patterns (cipherlist text) dictfile) []
    (letters_sorted_cipherlist _ _) (load_patterns_ok _ _)) as H.
  rewrite fold_opt_recorder in H. by destruct H as (h' & -> & _).
Qed.

(** ** The aggregator *)

Lemma possibilities_init_lookup c :
  possibilities_init !! c = if in_lowercase c then Some ∅ else None.
Proof. destruct c as [[] [] [] [] [] [] [] []]; vm_compute; reflexivity. Qed.

Lemma observe_loop_spec items : ∀ poss,
  (∀ c p, (c, p) ∈ items → is_Some (poss !! c)) →
  ∃ poss', observe_loop items poss = Some poss' ∧
           poss_extends (λ c p, (c, p) ∈ items) poss poss'.
Proof.
  induction items as [|[c0 p0] items IH]; intros poss Hkeys; simpl.
  - exists poss. split; [done|]. intros c. destruct (poss !! c); [|done].
    intros p. rewrite elem_of_nil. tauto.
  - destruct (Hkeys c0 p0) as [s0 Hs0]; [by left|].
    unfold possibilities_add. rewrite Hs0. simpl.
    destruct (IH (<[c0 := s0 ∪ {[p0]}]> poss)) as (poss' & -> & Hext).
    { intros c p Hin. rewrite lookup_insert. case_decide; [eauto|].
      apply (Hkeys c p). by right. }
    exists poss'. split; [done|]. intros c. specialize (Hext c).
    rewrite lookup_insert in Hext. case_decide as Hc.
    + subst c0. rewrite Hs0. destruct (poss' !! c); [|done].
      intros p. rewrite Hext, elem_of_union, elem_of_singleton, elem_of_cons.
      split; [intros [[?| ->]|?]; auto|].
      intros [?|[Heq|?]]; auto. injection Heq as ->. auto.
    + destruct (poss !! c), (poss' !! c); try done.
      intros p. rewrite Hext, elem_of_cons. split; [intros [?|?]; auto|].
      intros [?|[Heq|?]]; auto. congruence.
Qed.

Lemma observe_spec (d : dict) poss :
  (∀ c p, d !! c = Some p → is_Some (poss !! c)) →
  ∃ poss', observe d poss = Some poss' ∧
           poss_extends (λ c p, d !! c = Some p) poss poss'.
Proof.
  intros Hkeys. unfold observe.
  destruct (observe_loop_spec (map_to_list d) poss) as (poss' & Hobs & Hext).
  { intros c p Hin%elem_of_map_to_list. eauto. }
  exists poss'. split; [done|]. intros c. specialize (Hext c).
  destruct (poss !! c), (poss' !! c); try done.
  intros p. rewrite Hext. by rewrite elem_of_map_to_list.
Qed.

Lemma fold_observe_spec ds : ∀ poss,
  (∀ d c p, d ∈ ds → d !! c = Some p → is_Some (poss !! c)) →
  ∃ poss', fold_opt observe ds poss = Some poss' ∧
           poss_extends (λ c p, ∃ d, d ∈ ds ∧ d !! c = Some p) poss poss'.
Proof.
  induction ds as [|d ds IH]; intros poss Hkeys; simpl.
  - exists poss. split; [done|]. intros c. destruct (poss !! c); [|done].
    intros p. split; [by left|]. intros [?|(d & ?%elem_of_nil & _)]; done.
  - destruct (observe_spec d poss) as (poss1 & -> & Hext1).
    { intros c p. apply Hkeys. by left. }
    simpl. destruct (IH poss1) as (poss' & -> & Hext).
    { intros d' c p Hd' Hcp. specialize (Hext1 c).
      destruct (Hkeys d' c p) as [s Hs]; [by right|done|]. rewrite Hs in Hext1.
      destruct (poss1 !! c); [eauto|done]. }
    exists poss'. split; [done|]. intros c. specialize (Hext1 c). specialize (Hext c).
    destruct (poss !! c), (poss1 !! c), (poss' !! c); try done.
    intros p. rewrite Hext, Hext1. split.
    + intros [[?|?]|(d' & ? & ?)]; [by left|right..].
      * exists d. split; [by left|done].
      * exists d'. split; [by right|done].
    + intros [?|(d' & [ ->|?]%elem_of_cons & ?)]; eauto.
Qed.

(** What the collector holds after it was sent the letter mappings [ds]. *)
Lemma fold_observe_init ds :
  Forall letter_map ds →
  ∃ poss, fold_opt observe ds possibilities_init = Some poss ∧
    ∀ c, poss !! c =
         if in_lowercase c then
           Some (list_to_set (omap (λ d : dict, d !! c) ds))
         else None.
Proof.
  intros Hds. rewrite Forall_forall in Hds.
  destruct (fold_observe_spec ds possibilities_init) as (poss & Hfold & Hext).
  { intros d c p Hd Hcp. destruct (Hds d Hd c p Hcp) as [Hc%in_lowercase_elem_of _].
    rewrite possibilities_init_lookup, Hc. eauto. }
  exists poss. split; [done|]. intros c. specialize (Hext c).
  rewrite possibilities_init_lookup in Hext. destruct (in_lowercase c).
  - destruct (poss !! c) as [s|]; [|done]. f_equal. apply set_eq. intros p.
    rewrite Hext, elem_of_list_to_set, list_elem_of_omap.
    split; [intros [[]%not_elem_of_empty|?]; done|by right].
  - by destruct (poss !! c).
Qed.

Lemma send_all_reader {St} (f : dict → St → option St) ds : ∀ σ,
  match fold_opt f ds (sink σ) with
  | Some s' => ∃ h', send_all (reader f) ds σ = Some (Store (heap σ ++ h') s')
  | None => send_all (reader f) ds σ = None
  end.
Proof.
  induction ds as [|d ds IH]; intros σ; simpl.
  - exists []. rewrite app_nil_r. by destruct σ.
  - assert (reader f (length (heap σ)) (Store (heap σ ++ [d]) (sink σ))
            = s1 ← f d (sink σ); Some (Store (heap σ ++ [d]) s1)) as ->.
    { unfold reader. cbn [heap sink]. by rewrite lookup_app_r, Nat.sub_diag by done. }
    destruct (f d (sink σ)) as [s1|]; cbn [mbind option_bind]; [|done].
    specialize (IH (Store (heap σ ++ [d]) s1)). simpl in IH.
    destruct (fold_opt f ds s1); [|done].
    destruct IH as [h' ->]. exists ([d] ++ h'). by rewrite <-app_assoc.
Qed.

Lemma finaldict_lookup poss c :
  finaldict poss !! c =
    poss !! c ≫= λ s : gset ascii,
      match size s with
      | 0 => None
      | 1 => head (elements s)
      | _ => Some "_"
      end.
Proof. unfold finaldict. apply lookup_omap. Qed.

Lemma finaldict_init : finaldict possibilities_init = ∅.
Proof.
  apply map_eq. intros c. rewrite finaldict_lookup, possibilities_init_lookup, lookup_empty.
  by destruct (in_lowercase c).
Qed.

Lemma head_elements_singleton (s : gset ascii) p : s = {[p]} → head (elements s) = Some p.
Proof. intros ->. by rewrite elements_singleton. Qed.

Lemma size_1_singleton (s : gset ascii) : size s = 1 → ∃ p, s = {[p]}.
Proof. intros (p & Hp)%size_1_elem_of. exists p. by apply leibniz_equiv. Qed.

Lemma uppercase_not_lowercase ch : ch ∈ ascii_uppercase → in_lowercase ch = false.
Proof.
  intros H. apply (bool_decide_pack (ch ∈ ascii_uppercase)) in H. revert H.
  destruct ch as [[] [] [] [] [] [] [] []]; vm_compute; tauto.
Qed.

Lemma prettyprint_loop_render text table : ∀ ans,
  prettyprint_loop text table ans = Some (ans ++ map (render table) text).
Proof.
  induction text as [|ch text IH]; intros ans; simpl.
  - by rewrite app_nil_r.
  - unfold render at 1. case_bool_decide as Hin.
    + destruct Hin as [v Hv]. rewrite Hv. destruct (in_lowercase ch) eqn:Hch.
      * apply in_lowercase_elem_of, lower_lowercase in Hch. rewrite Hch in Hv.
        rewrite Hv. simpl. rewrite IH. by rewrite <-app_assoc.
      * simpl. rewrite IH. by rewrite <-app_assoc.
    + destruct (table !! lower ch) as [v|] eqn:Hv; [destruct Hin; eauto|].
      rewrite IH. by rewrite <-app_assoc.
Qed.

Lemma prettyprint_render text table :
  prettyprint text table = Some (map (render table) text).
Proof. unfold prettyprint. by rewrite prettyprint_loop_render. Qed.

Lemma prettyprint_empty text : prettyprint text ∅ = Some text.
Proof.
  rewrite prettyprint_render. f_equal. induction text as [|ch text IH]; simpl; [done|].
  rewrite IH. unfold render. by rewrite lookup_empty.
Qed.

(** C8. The renderer: [prettyprint] returns, for every text and every table
    from characters to characters, a string of the length of the text in
    which, position by position, a lower-case letter that is in the table
    is replaced by its value, an upper-case letter whose lower-case form is
    in the table is replaced by that value in upper case, and a character
    whose lower-case form is not in the table is kept; when the keys of the
    table are lower-case letters every non-alphabetic character is kept.
    ["Xdg!"] with the table {x:d, d:o, g:g} gives ["Dog!"]. *)
Theorem prettyprint_spec (text : chars) (table : dict) :
  ∃ out, prettyprint text table = Some out ∧ length out = length text ∧
    (∀ i ch, text !! i = Some ch →
       (∀ v, ch ∈ ascii_lowercase → table !! ch = Some v → out !! i = Some v) ∧
       (∀ v, ch ∈ ascii_uppercase → table !! lower ch = Some v →
          out !! i = Some (upper v)) ∧
       (table !! lower ch = None → out !! i = Some ch)) ∧
    ((∀ k, is_Some (table !! k) → k ∈ ascii_lowercase) →
     ∀ i ch, text !! i = Some ch → is_alpha ch = false → out !! i = Some ch) ∧
    prettyprint (str "Xdg!") (<["x" := "d"]> (<["d" := "o"]> {["g" := "g"]}))
      = Some (str "Dog!").
Proof.
  exists (map (render table) text). split; [apply prettyprint_render|].
  split; [apply length_map|]. split; [|split; [|by vm_compute]].
  - intros i ch Hi. rewrite list_lookup_fmap, Hi. simpl. unfold render. repeat split.
    + intros v Hch Hv. rewrite (lower_lowercase ch Hch), Hv.
      apply in_lowercase_elem_of in Hch. by rewrite Hch.
    + intros v Hch Hv. by rewrite Hv, (uppercase_not_lowercase ch Hch).
    + by intros ->.
  - intros Hkeys i ch Hi Halpha. rewrite list_lookup_fmap, Hi. simpl. unfold render.
    destruct (table !! lower ch) as [v|] eqn:Hv; [|done].
    assert (lower ch ∈ ascii_lowercase) as Hin by eauto.
    apply in_lowercase_elem_of in Hin. rewrite in_lowercase_alpha in Hin. congruence.
Qed.

(** *** One stage *)

Lemma extend_agrees cw pw d c p :
  (∀ c p, pairs cw pw c p → admissible_at d c p) →
  d !! c = Some p → extend cw pw d !! c = Some p.
Proof.
  intros Hadm Hd. unfold extend.
  assert (∀ p', (c, p') ∈ zip cw pw → p' = p) as Hfun.
  { intros p' Hp'%elem_of_zip_pairs. destruct (Hadm c p' Hp') as [?|[? _]]; congruence. }
  destruct (decide (c ∈ (zip cw pw).*1)) as [Hin|Hin].
  - apply list_elem_of_fmap in Hin as ([c' p1] & ? & Hin). simpl in *. subst c'.
    apply foldl_insert_in; [|done]. by rewrite <-(Hfun p1 Hin).
  - by rewrite foldl_insert_notin.
Qed.

Lemma extend_new cw pw d c p :
  same_shape cw pw → pairs cw pw c p → extend cw pw d !! c = Some p.
Proof.
  intros Hsh Hp. unfold extend. apply foldl_insert_in; [by apply elem_of_zip_pairs|].
  intros p' Hp'%elem_of_zip_pairs. by apply (proj1 (same_shape_pairs cw pw c p' c p Hsh Hp' Hp)).
Qed.

Lemma extend_other cw pw d c :
  length cw = length pw → c ∉ cw → extend cw pw d !! c = d !! c.
Proof.
  intros Hlen Hc. unfold extend. apply foldl_insert_notin.
  intros ([c' p] & ? & (i & Hi & _)%elem_of_zip_pairs)%list_elem_of_fmap.
  simpl in *. subst c'. apply Hc. by eapply list_elem_of_lookup_2.
Qed.

Lemma bind_singleton {A} (l : list A) : l ≫= (λ x, [x]) = l.
Proof. induction l as [|x l IH]; [done|]. simpl. f_equal. exact IH. Qed.

(** What a stage does with one inbound dictionary, its target being the
    recorder. *)
Lemma guesser_recorder cw pats guess (σ : store (list dict)) d :
  heap σ !! guess = Some d → letters (values d) → Forall letters pats →
  ∃ h', guesser cw pats recorder guess σ =
          Some (Store (heap σ ++ h') (sink σ ++ stage_out cw pats d)).
Proof.
  intros Hg Hd Hpats.
  pose proof (guesser_implements (λ d seen, Some (seen ++ [d])) recorder (λ d, [d])
    (λ _, True) (λ d, letters (values d)) (λ _, True) cw pats
    (reader_implements _ _ _) (λ _ H, H) Hpats (λ _ _ _ _ _, conj I I) guess σ d Hg Hd) as H.
  cbn beta in H. rewrite fold_opt_recorder in H. destruct H as (h' & -> & _).
  exists h'. by rewrite bind_singleton.
Qed.

(** C9. Frame of a stage: for an inbound dictionary [d] with letters as
    values and candidate words made of letters, one round of [guesser]
    (observed by the recorder as its target) succeeds, leaves every
    dictionary object that was on the heap as it was, the inbound one
    included (the stage writes to copies only), and every dictionary it
    sends on agrees with [d] on every cipher letter [d] defines. *)
Theorem guesser_frame (cipherword : chars) (patterns : list chars) (guess : nat)
    (σ : store (list dict)) (d : dict) :
  heap σ !! guess = Some d → letters (values d) → Forall letters patterns →
  ∃ σ' h' sent,
    guesser cipherword patterns recorder guess σ = Some σ' ∧
    heap σ' = heap σ ++ h' ∧ heap σ' !! guess = Some d ∧
    sink σ' = sink σ ++ sent ∧
    ∀ m, m ∈ sent → ∀ c p, d !! c = Some p → m !! c = Some p.
Proof.
  intros Hg Hd Hpats.
  destruct (guesser_recorder cipherword patterns guess σ d Hg Hd Hpats) as [h' Hrun].
  eexists _, h', (stage_out cipherword patterns d).
  split; [exact Hrun|]. simpl. split; [done|]. split; [by apply lookup_app_l_Some|].
  split; [done|].
  intros m (pw & _ & [_ Hadm]%admits_spec & ->)%elem_of_stage_out c p Hcp.
  by apply extend_agrees.
Qed.

Lemma guesser_loop_recorder cw pats guess d :
  letters (values d) → Forall letters pats →
  ∀ σ : store (list dict), heap σ !! guess = Some d →
  let sent := (λ pw, extend cw pw d)
                <$> filter (λ pw, re_match (map (atom_of d) cw) pw = true) pats in
  guesser_loop (map (atom_of d) cw) cw pats recorder guess σ =
    Some (Store (heap σ ++ sent) (sink σ ++ sent)).
Proof.
  intros Hd Hpats. induction Hpats as [|pw pats Hpw Hpats IH]; intros σ Hg.
  - simpl. rewrite !app_nil_r. by destruct σ.
  - cbn zeta. cbn [guesser_loop]. rewrite filter_cons.
    destruct (decide (re_match (map (atom_of d) cw) pw = true)) as [Hm|Hm].
    + rewrite Hm. rewrite re_match_admits in Hm by done.
      apply andb_true_iff in Hm as [Hlen%bool_decide_eq_true _].
      unfold copy. rewrite Hg. cbn [mbind option_bind].
      rewrite (assign_loop_extend _ _ _ _ 0 d); [|done|done|]; last first.
      { simpl. by rewrite lookup_app_r, Nat.sub_diag by done. }
      cbn [heap sink mbind option_bind]. rewrite !drop_0. fold (extend cw pw d).
      rewrite insert_app_r_alt, Nat.sub_diag by done. cbn [insert list_insert].
      assert (∀ h (seen : list dict) e,
                recorder (length h) (Store (h ++ [e]) seen)
                = Some (Store (h ++ [e]) (seen ++ [e]))) as ->.
      { intros h seen e. unfold recorder, reader. cbn [heap sink].
        by rewrite lookup_app_r, Nat.sub_diag by done. }
      cbn [mbind option_bind]. rewrite IH; last first.
      { cbn [heap]. by apply lookup_app_l_Some. }
      cbn [heap sink fmap list_fmap]. by rewrite <-!app_assoc.
    + apply not_true_is_false in Hm. rewrite Hm. by apply IH.
Qed.

(** C2. The matcher: for a cipher word, a list of candidates of its pattern
    tuple, all made of letters, and an inbound mapping on letters, the
    regular expression of [getregex] matches a candidate exactly when at
    every position the cipher letter is mapped to the candidate's letter, or
    is unmapped while the candidate's letter is the value of no mapped
    cipher letter; and the stage sends, in the order of the list, exactly
    one mapping for each admitted candidate and nothing else: the inbound
    mapping plus cipher letter [i] to candidate letter [i] for the cipher
    letters that were unmapped. *)
Theorem matcher_spec (cipherword : chars) (patterns : list chars) (d : dict)
    (guess : nat) (σ : store (list dict)) :
  letters cipherword → Forall letters patterns → letter_map d →
  Forall (λ plainword, getpatterntuple cipherword = getpatterntuple plainword)
    patterns →
  heap σ !! guess = Some d →
  let admissible plainword :=
    ∀ i c p, cipherword !! i = Some c → plainword !! i = Some p →
      d !! c = Some p ∨ (d !! c = None ∧ ∀ c' p', d !! c' = Some p' → p ≠ p') in
  let derived plainword (m : dict) :=
    (∀ c p, d !! c = Some p → m !! c = Some p) ∧
    (∀ i c p, cipherword !! i = Some c → plainword !! i = Some p →
       d !! c = None → m !! c = Some p) ∧
    (∀ c, d !! c = None → c ∉ cipherword → m !! c = None) in
  ∃ r sent,
    getregex cipherword d = Some r ∧
    (∀ plainword, plainword ∈ patterns →
       (re_match r plainword = true ↔ admissible plainword)) ∧
    guesser cipherword patterns recorder guess σ
      = Some (Store (heap σ ++ sent) (sink σ ++ sent)) ∧
    Forall2 derived (filter (λ plainword, re_match r plainword = true) patterns)
      sent.
Proof.
  intros Hcw Hpats Hd Htup Hg admissible derived.
  pose proof (letter_map_values d Hd) as Hv.
  assert (∀ pw, pw ∈ patterns →
            same_shape cipherword pw ∧
            (admits cipherword pw d = true ↔ admissible pw)) as Hadm.
  { intros pw Hin.
    pose proof (getpatterntuple_same_shape _ _ Hcw
                  (proj1 (Forall_forall _ _) Hpats pw Hin)
                  (proj1 (Forall_forall _ _) Htup pw Hin)) as Hsh.
    split; [done|]. rewrite admits_spec. split.
    - intros [_ H] i c p Hc Hp. apply (H c p). by exists i.
    - intros H. split; [apply Hsh|]. intros c p (i & Hc & Hp). by apply (H i c p). }
  exists (map (atom_of d) cipherword).
  exists ((λ pw, extend cipherword pw d)
            <$> filter (λ pw, re_match (map (atom_of d) cipherword) pw = true) patterns).
  split; [by apply getregex_compiled|]. split; [|split].
  - intros pw Hin. rewrite re_match_admits by (by apply (proj1 (Forall_forall _ _) Hpats)).
    by apply Hadm.
  - unfold guesser. rewrite Hg. cbn [mbind option_bind].
    rewrite getregex_compiled by done. cbn [mbind option_bind].
    by apply guesser_loop_recorder.
  - apply Forall2_fmap_r, Forall_Forall2_diag, Forall_forall.
    intros pw [Hm Hin]%list_elem_of_filter.
    rewrite re_match_admits in Hm by (by apply (proj1 (Forall_forall _ _) Hpats)).
    destruct (Hadm pw Hin) as [Hsh Hiff]. apply Hiff in Hm as Hadmissible.
    split; [|split].
    + intros c p. apply extend_agrees. intros c' p' (i & Hc & Hp).
      by apply (Hadmissible i c' p').
    + intros i c p Hc Hp _. apply extend_new; [done|]. by exists i.
    + intros c Hnone Hc. rewrite extend_other; [done|apply Hsh|done].
Qed.

(** *** The collector at the end of a chain *)

Lemma send_empty_collector order patterns :
  Forall letters order → index_ok patterns →
  ∃ h poss,
    send_empty order patterns guesscollector possibilities_init = Some (Store h poss) ∧
    fold_opt observe (chain_out (the_stages order patterns) ∅) possibilities_init
      = Some poss ∧
    ∀ c, poss !! c =
         if in_lowercase c then
           Some (list_to_set (omap (λ d : dict, d !! c)
                   (chain_out (the_stages order patterns) ∅)))
         else None.
Proof.
  intros Hord Hok. destruct (the_stages_wf _ _ Hord Hok) as [Hwf Hsh].
  destruct (fold_observe_init (chain_out (the_stages order patterns) ∅)) as (poss & Hfold & Hposs).
  { apply Forall_forall. intros m Hm.
    by destruct (chain_out_good _ Hwf Hsh ∅ m good_map_empty Hm). }
  pose proof (send_empty_reader observe order patterns possibilities_init Hord Hok) as H.
  rewrite Hfold in H. destruct H as (h' & Hrun & _). eauto.
Qed.

Lemma resolution_order text dictfile :
  ∃ h poss,
    run text dictfile guesscollector possibilities_init = Some (Store h poss) ∧
    fold_opt observe (chain_out (run_stages text dictfile) ∅) possibilities_init
      = Some poss ∧
    resolution text dictfile = Some (finaldict poss) ∧
    decrypt text dictfile = prettyprint text (finaldict poss).
Proof.
  destruct (send_empty_collector (sorted_cipherlist text dictfile)
    (load_patterns (cipherlist text) dictfile)
    (letters_sorted_cipherlist _ _) (load_patterns_ok _ _)) as (h & poss & Hrun & Hfold & _).
  exists h, poss. unfold resolution, decrypt, run. rewrite Hrun. done.
Qed.

(** C1. Injectivity invariant: the run from the empty mapping succeeds, and
    every dictionary on the heap at its end (the empty mapping and each
    dictionary that a stage created and sent to its target) and every
    mapping that reaches the end of the chain is injective; the collector at
    the end of the chain is sent exactly these mappings, and takes them
    without an error. *)
Theorem injectivity_invariant (text : chars) (dictfile : list chars) :
  ∃ σ, run text dictfile recorder [] = Some σ ∧
       observed text dictfile = Some (sink σ) ∧
       (∀ m, m ∈ heap σ → injective m) ∧
       (∀ m, m ∈ sink σ → injective m) ∧
       ∃ h poss,
         run text dictfile guesscollector possibilities_init = Some (Store h poss) ∧
         fold_opt observe (sink σ) possibilities_init = Some poss.
Proof.
  pose proof (letters_sorted_cipherlist text dictfile) as Hord.
  pose proof (load_patterns_ok (cipherlist text) dictfile) as Hok.
  pose proof (send_empty_reader (λ d seen, Some (seen ++ [d])) _ _ [] Hord Hok) as H.
  rewrite fold_opt_recorder in H. destruct H as (h' & Hrun & Hh').
  eexists. split; [exact Hrun|]. cbn [heap sink app]. split; [|split; [|split]].
  - unfold observed, run, recorder. by rewrite Hrun.
  - intros m [ ->|Hm]%elem_of_cons; [apply injective_empty|].
    rewrite Forall_forall in Hh'. by apply Hh'.
  - intros m Hm. destruct (the_stages_wf _ _ Hord Hok) as [Hwf Hsh].
    by apply (chain_out_good _ Hwf Hsh ∅ m good_map_empty).
  - destruct (resolution_order text dictfile) as (h & poss & Hcol & Hfold & _).
    exists h, poss. done.
Qed.

(** C5. Determinism and independence of the order of the stages: the table
    of the run is a function of the text and the dictionary, and the chain
    assembled over any permutation of the cipher words, sent the empty
    mapping, leaves the collector with the same table. *)
Theorem order_independence (text : chars) (dictfile order : list chars) :
  order ≡ₚ cipherlist text →
  ∃ table,
    resolution text dictfile = Some table ∧
    finaldict ∘ sink <$>
      send_empty order (load_patterns (cipherlist text) dictfile)
        guesscollector possibilities_init = Some table.
Proof.
  intros Hperm. set (patterns := load_patterns (cipherlist text) dictfile).
  pose proof (load_patterns_ok (cipherlist text) dictfile) as Hok. fold patterns in Hok.
  assert (Forall letters order) as Hord by (rewrite Hperm; apply letters_cipherlist).
  pose proof (letters_sorted_cipherlist text dictfile) as Hsorted.
  destruct (send_empty_collector order patterns Hord Hok) as (h1 & poss1 & Hrun1 & _ & Hp1).
  destruct (send_empty_collector _ patterns Hsorted Hok) as (h2 & poss2 & Hrun2 & _ & Hp2).
  exists (finaldict poss2). unfold resolution, run. fold patterns. rewrite Hrun1, Hrun2. simpl.
  split; [done|]. do 2 f_equal. apply map_eq. intros c. rewrite Hp1, Hp2.
  destruct (in_lowercase c); [|done]. f_equal. apply set_eq. intros p.
  rewrite !elem_of_list_to_set, !list_elem_of_omap.
  assert (the_stages order patterns ≡ₚ the_stages (sorted_cipherlist text dictfile) patterns) as Hst.
  { apply the_stages_perm. rewrite Hperm. unfold sorted_cipherlist. by rewrite sort_perm. }
  destruct (the_stages_wf _ _ Hord Hok) as [_ Hsh].
  split; intros (m & Hm & Hc); exists m; (split; [|done]);
    by apply (chain_out_permutation _ _ Hst Hsh ∅ m injective_empty).
Qed.

(** *** A stage without candidates *)

Lemma chain_out_dead stages cw :
  (cw, []) ∈ stages → ∀ d, chain_out stages d = [].
Proof.
  induction stages as [|[cw' pats] stages IH]; intros Hin d.
  - by apply elem_of_nil in Hin.
  - simpl. apply elem_of_cons in Hin as [[= <- <-]|Hin]; [done|].
    induction (stage_out cw' pats d) as [|m l IHl]; simpl; [done|].
    rewrite (IH Hin m). exact IHl.
Qed.

(** C3, as the program has it. A cipher word without candidates raises no
    error, but its stage sends nothing on; the stages being in one line, no
    mapping reaches the collector, no letter gets a substitution and the
    text is printed as it is. *)
Theorem zero_candidates_block (text : chars) (dictfile : list chars) (w0 : chars) :
  w0 ∈ cipherlist text →
  candidates (load_patterns (cipherlist text) dictfile) w0 = [] →
  observed text dictfile = Some [] ∧
  resolution text dictfile = Some ∅ ∧
  decrypt text dictfile = Some text.
Proof.
  intros Hw0 Hcand.
  assert (chain_out (run_stages text dictfile) ∅ = []) as Hout.
  { apply (chain_out_dead _ w0). unfold run_stages, the_stages.
    rewrite elem_of_reverse, list_elem_of_fmap. exists w0. rewrite Hcand. split; [done|].
    unfold sorted_cipherlist. by rewrite sort_perm. }
  destruct (resolution_order text dictfile) as (h & poss & _ & Hfold & Hres & Hdec).
  rewrite Hout in Hfold. injection Hfold as <-.
  rewrite finaldict_init in Hres, Hdec.
  split; [by rewrite observed_chain_out, Hout|]. split; [done|].
  by rewrite Hdec, prettyprint_empty.
Qed.

(** C4, as the program has it. The sorted cipher list is a permutation of
    the list of the non-empty normalised words, so the chain has one stage
    for each occurrence of a word. *)
Theorem one_stage_per_occurrence (text : chars) (dictfile : list chars) :
  sorted_cipherlist text dictfile ≡ₚ cipherlist text ∧
  stage_count text dictfile = length (cipherlist text) ∧
  length (run_stages text dictfile) = length (cipherlist text).
Proof.
  assert (sorted_cipherlist text dictfile ≡ₚ cipherlist text) as Hperm.
  { unfold sorted_cipherlist. apply sort_perm. }
  split; [done|]. unfold stage_count, run_stages, the_stages.
  by rewrite length_reverse, length_fmap, Hperm.
Qed.

(** *** A text without letters *)

Lemma scrubstring_no_alpha w : Forall (λ ch, is_alpha ch = false) w → scrubstring w = [].
Proof.
  unfold scrubstring. induction 1 as [|ch w Hch _ IH]; [done|].
  cbn [map]. rewrite filter_cons_False; [done|].
  rewrite <-in_lowercase_elem_of, in_lowercase_alpha. congruence.
Qed.

Lemma split_loop_no_alpha text : ∀ cur,
  Forall (λ ch, is_alpha ch = false) text → Forall (λ ch, is_alpha ch = false) cur →
  Forall (Forall (λ ch, is_alpha ch = false)) (split_loop text cur).
Proof.
  induction text as [|ch text IH]; intros cur Htext Hcur; simpl.
  - by apply Forall_singleton.
  - apply Forall_cons in Htext as [Hch Htext]. case_bool_decide.
    + apply Forall_cons. split; [done|]. by apply IH.
    + apply IH; [done|]. apply Forall_app. split; [done|]. by apply Forall_singleton.
Qed.

Lemma cipherlist_no_alpha text :
  Forall (λ ch, is_alpha ch = false) text → cipherlist text = [].
Proof.
  intros Htext. unfold cipherlist, split.
  pose proof (split_loop_no_alpha text [] Htext (Forall_nil_2 _)) as H.
  induction H as [|w ws Hw _ IH]; [done|].
  rewrite fmap_cons, (scrubstring_no_alpha w Hw). by rewrite filter_cons_False by naive_solver.
Qed.

Lemma guesscollector_empty (poss : possibilities) :
  guesscollector 0 (Store [∅] poss) = Some (Store [∅] poss).
Proof.
  unfold guesscollector. cbn [heap sink lookup list_lookup mbind option_bind].
  unfold observe. rewrite map_to_list_empty. done.
Qed.

(** C10. A text without ASCII letters: the cipher list and the chain are
    empty, the end of the chain is sent the empty mapping and nothing else,
    no cipher letter gets a substitution, and the text is printed as it
    is. *)
Theorem no_letters (text : chars) (dictfile : list chars) :
  Forall (λ ch, is_alpha ch = false) text →
  cipherlist text = [] ∧ stage_count text dictfile = 0 ∧
  observed text dictfile = Some [∅] ∧
  resolution text dictfile = Some ∅ ∧
  decrypt text dictfile = Some text.
Proof.
  intros Htext. pose proof (cipherlist_no_alpha text Htext) as Hcl.
  assert (sorted_cipherlist text dictfile = []) as Hsorted.
  { unfold sorted_cipherlist. by rewrite Hcl. }
  assert (run text dictfile guesscollector possibilities_init
          = Some (Store [∅] possibilities_init)) as Hrun.
  { unfold run. rewrite Hsorted. unfold send_empty, chain. cbn [foldl].
    apply guesscollector_empty. }
  split; [done|]. split; [unfold stage_count; by rewrite Hsorted|].
  split; [unfold observed, run; by rewrite Hsorted|].
  unfold resolution, decrypt, guesscollector_close. rewrite Hrun.
  cbn [fmap option_fmap option_map mbind option_bind sink compose].
  rewrite finaldict_init. split; [done|apply prettyprint_empty].
Qed.

(** C7. Finalisation: after the collector was sent the mappings [ds] (on
    letters), the set [s] it holds for a cipher letter [c] is the set of the
    plain letters proposed for [c], and the final table maps [c] to the
    letter [p] exactly when [s] is the singleton of [p], to the placeholder
    ['_'] exactly when [s] has more than one member, and has no entry for
    [c] exactly when [s] is empty. *)
Theorem finalize_resolution (ds : list dict) (c : ascii) :
  Forall letter_map ds → c ∈ ascii_lowercase →
  ∃ σ s,
    send_all guesscollector ds (Store [] possibilities_init) = Some σ ∧
    sink σ !! c = Some s ∧
    (∀ p, p ∈ s ↔ ∃ d, d ∈ ds ∧ d !! c = Some p) ∧
    (∀ p, p ∈ ascii_lowercase → (finaldict (sink σ) !! c = Some p ↔ s = {[p]})) ∧
    (finaldict (sink σ) !! c = Some "_" ↔ 1 < size s) ∧
    (finaldict (sink σ) !! c = None ↔ s = ∅).
Proof.
  intros Hds Hc. destruct (fold_observe_init ds Hds) as (poss & Hfold & Hposs).
  pose proof (send_all_reader observe ds (Store [] possibilities_init)) as Hsend.
  simpl in Hsend. rewrite Hfold in Hsend. destruct Hsend as [h' Hsend].
  exists (Store h' poss), (list_to_set (omap (λ d : dict, d !! c) ds)).
  split; [exact Hsend|]. simpl.
  assert (poss !! c = Some (list_to_set (omap (λ d : dict, d !! c) ds))) as Hs.
  { rewrite Hposs. apply in_lowercase_elem_of in Hc. by rewrite Hc. }
  split; [done|].
  set (s := list_to_set (omap (λ d : dict, d !! c) ds) : gset ascii) in *.
  assert (∀ p, p ∈ s ↔ ∃ d, d ∈ ds ∧ d !! c = Some p) as Hmem.
  { intros p. unfold s. by rewrite elem_of_list_to_set, list_elem_of_omap. }
  assert (∀ p, p ∈ s → p ∈ ascii_lowercase) as Hlet.
  { intros p (d & Hd & Hcp)%Hmem. rewrite Forall_forall in Hds.
    by destruct (Hds d Hd c p Hcp). }
  split; [done|]. rewrite finaldict_lookup, Hs. simpl.
  destruct (size s) as [|[|n]] eqn:Hsz.
  - apply size_empty_iff, leibniz_equiv in Hsz. rewrite Hsz. split; [|split].
    + intros p _. split; [done|]. intros H.
      assert (p ∈ (∅ : gset ascii)) as []%not_elem_of_empty.
      rewrite H. by apply elem_of_singleton.
    + split; [done|lia].
    + done.
  - destruct (size_1_singleton s Hsz) as [q Hq]. rewrite Hq, elements_singleton. simpl.
    assert (q ∈ ascii_lowercase) as Hql.
    { apply Hlet. rewrite Hq. by apply elem_of_singleton. }
    split; [|split].
    + intros p _. split; [by intros [= ->]|]. intros Heq. f_equal.
      assert (p ∈ ({[q]} : gset ascii)) as Hp%elem_of_singleton; [|done].
      rewrite Heq. by apply elem_of_singleton.
    + split; [|lia]. intros [= ->].
      by destruct (lowercase_not_special "_" Hql) as (_ & _ & _ & _ & _ & []).
    + split; [done|]. intros Heq.
      assert (q ∈ (∅ : gset ascii)) as []%not_elem_of_empty.
      rewrite <-Heq. by apply elem_of_singleton.
  - split; [|split].
    + intros p Hp. split.
      * intros [= <-]. by destruct (lowercase_not_special "_" Hp) as (_ & _ & _ & _ & _ & []).
      * intros ->. rewrite size_singleton in Hsz. lia.
    + split; [lia|done].
    + split; [done|]. intros ->. by rewrite size_empty in Hsz.
Qed.

(** ** Examples *)

Example scrubstring_example :
  scrubstring (str "Don't use multiple words...") = str "dontusemultiplewords".
Proof. vm_compute. reflexivity. Qed.

Example getpatterntuple_example :
  getpatterntuple (str "word") = [1; 2; 3; 4] ∧
  getpatterntuple (str "all") = [1; 2; 2] ∧
  getpatterntuple (str "llama") = [1; 1; 2; 3; 2].
Proof. vm_compute. auto. Qed.

Example getregex_example :
  getregex (str "skmms") {[ "m" := "l" ]}
    = Some [ReNotIn ["l"]; ReNotIn ["l"]; ReLit "l"; ReLit "l"; ReNotIn ["l"]] ∧
  (r ← getregex (str "skmms") {[ "m" := "l" ]};
   Some (re_match r <$> [str "sells"; str "sills"; str "balls"; str "shoos"]))
    = Some [true; true; true; false].
Proof. vm_compute. auto. Qed.

Example decrypt_example :
  decrypt (str "Xdg, xddg!")
    [str "dog"; str "Cat"; str "the"; str "door"; str "boot"; str "bot"]
    = Some (str "Bot, boot!").
Proof. vm_compute. reflexivity. Qed.

Example decrypt_ambiguous :
  decrypt (str "Xdg") [str "dog"; str "dig"] = Some (str "D_g").
Proof. vm_compute. reflexivity. Qed.

Example sorted_cipherlist_example :
  sorted_cipherlist (str "ab cc xy dd") [str "on"; str "at"; str "it"; str "oo"]
    = [str "ab"; str "xy"; str "cc"; str "dd"].
Proof. vm_compute. reflexivity. Qed.

(** Without the normalisation the letters of a word are those of its
    lower-case form. *)
Example getpatterntuple_mixed_case :
  getpatterntuple (str "Aa") = getpatterntuple (str "bb").
Proof. vm_compute. reflexivity. Qed.

(** ** Witnesses and counterexamples *)

Lemma matcher_spec_witness :
  let cipherword := str "xdg" in
  let patterns := [str "dog"; str "cat"; str "dig"] in
  let d : dict := {[ "x" := "d" ]} in
  let σ := Store [d] [] in
  let admissible plainword :=
    ∀ i c p, cipherword !! i = Some c → plainword !! i = Some p →
      d !! c = Some p ∨ (d !! c = None ∧ ∀ c' p', d !! c' = Some p' → p ≠ p') in
  let derived plainword (m : dict) :=
    (∀ c p, d !! c = Some p → m !! c = Some p) ∧
    (∀ i c p, cipherword !! i = Some c → plainword !! i = Some p →
       d !! c = None → m !! c = Some p) ∧
    (∀ c, d !! c = None → c ∉ cipherword → m !! c = None) in
  ∃ r sent,
    getregex cipherword d = Some r ∧
    (∀ plainword, plainword ∈ patterns →
       (re_match r plainword = true ↔ admissible plainword)) ∧
    guesser cipherword patterns recorder 0 σ
      = Some (Store (heap σ ++ sent) (sink σ ++ sent)) ∧
    Forall2 derived (filter (λ plainword, re_match r plainword = true) patterns)
      sent.
Proof.
  apply (matcher_spec (str "xdg") [str "dog"; str "cat"; str "dig"]
           {[ "x" := "d" ]} 0 (Store [{[ "x" := "d" ]}] [])).
  - by_eval.
  - repeat constructor; by_eval.
  - by_eval.
  - repeat constructor.
  - reflexivity.
Defined.

Lemma zero_candidates_block_witness :
  observed (str "xdg qq") [str "dog"] = Some [] ∧
  resolution (str "xdg qq") [str "dog"] = Some ∅ ∧
  decrypt (str "xdg qq") [str "dog"] = Some (str "xdg qq").
Proof.
  apply (zero_candidates_block (str "xdg qq") [str "dog"] (str "qq")).
  - by_eval.
  - vm_compute. reflexivity.
Defined.

Lemma zero_candidates_counterexample :
  let text := str "xdg qq" in
  let dictfile := [str "dog"] in
  let patterns := load_patterns (cipherlist text) dictfile in
  cipherlist text = [str "xdg"; str "qq"] ∧
  candidates patterns (str "qq") = [] ∧
  candidates patterns (str "xdg") = [str "dog"] ∧
  observed text dictfile = Some [] ∧
  resolution text dictfile = Some ∅ ∧
  ¬ zero_candidate_claim text dictfile.
Proof.
  cbv zeta. repeat split; try (vm_compute; reflexivity).
  intros Hclaim.
  destruct (Hclaim (str "qq") (str "xdg") "x") as (table & Hres & Hx).
  - by_eval.
  - vm_compute. reflexivity.
  - by_eval.
  - vm_compute. discriminate.
  - by_eval.
  - assert (resolution (str "xdg qq") [str "dog"] = Some ∅) as Hres'
      by (vm_compute; reflexivity).
    rewrite Hres' in Hres. injection Hres as <-. rewrite lookup_empty in Hx.
    by destruct Hx.
Qed.

Lemma one_stage_per_word_counterexample :
  stage_count (str "aa aa") [] = 2 ∧
  length (remove_dups (cipherlist (str "aa aa"))) = 1 ∧
  ¬ one_stage_per_word_claim (str "aa aa") [].
Proof.
  split; [vm_compute; reflexivity|]. split; [vm_compute; reflexivity|].
  unfold one_stage_per_word_claim. vm_compute. discriminate.
Qed.

Lemma order_independence_witness :
  ∃ table,
    resolution (str "xdg god") [str "dog"; str "god"; str "dig"] = Some table ∧
    finaldict ∘ sink <$>
      send_empty [str "god"; str "xdg"]
        (load_patterns (cipherlist (str "xdg god")) [str "dog"; str "god"; str "dig"])
        guesscollector possibilities_init = Some table.
Proof.
  apply (order_independence (str "xdg god") [str "dog"; str "god"; str "dig"]
           [str "god"; str "xdg"]).
  vm_compute. apply Permutation_swap.
Defined.

Lemma finalize_resolution_witness :
  let ds : list dict := [ {[ "x" := "d" ]}; {[ "x" := "c" ]} ] in
  let c := "x" in
  ∃ σ s,
    send_all guesscollector ds (Store [] possibilities_init) = Some σ ∧
    sink σ !! c = Some s ∧
    (∀ p, p ∈ s ↔ ∃ d, d ∈ ds ∧ d !! c = Some p) ∧
    (∀ p, p ∈ ascii_lowercase → (finaldict (sink σ) !! c = Some p ↔ s = {[p]})) ∧
    (finaldict (sink σ) !! c = Some "_" ↔ 1 < size s) ∧
    (finaldict (sink σ) !! c = None ↔ s = ∅).
Proof.
  apply (finalize_resolution [ {[ "x" := "d" ]}; {[ "x" := "c" ]} ] "x").
  - by_eval.
  - by_eval.
Defined.

Lemma guesser_frame_witness :
  let d : dict := {[ "x" := "d" ]} in
  let σ := Store [d] [] in
  ∃ σ' h' sent,
    guesser (str "xdg") [str "dog"; str "cat"; str "dig"] recorder 0 σ = Some σ' ∧
    heap σ' = heap σ ++ h' ∧ heap σ' !! 0 = Some d ∧
    sink σ' = sink σ ++ sent ∧
    ∀ m, m ∈ sent → ∀ c p, d !! c = Some p → m !! c = Some p.
Proof.
  apply (guesser_frame (str "xdg") [str "dog"; str "cat"; str "dig"] 0
           (Store [{[ "x" := "d" ]}] []) {[ "x" := "d" ]}).
  - reflexivity.
  - by_eval.
  - by_eval.
Defined.

Lemma no_letters_witness :
  cipherlist (str "12 + 3 = 15!") = [] ∧
  stage_count (str "12 + 3 = 15!") [str "dog"] = 0 ∧
  observed (str "12 + 3 = 15!") [str "dog"] = Some [∅] ∧
  resolution (str "12 + 3 = 15!") [str "dog"] = Some ∅ ∧
  decrypt (str "12 + 3 = 15!") [str "dog"] = Some (str "12 + 3 = 15!").
Proof.
  apply (no_letters (str "12 + 3 = 15!") [str "dog"]). by_eval.
Defined.

(** * Further properties of the functions *)

(** ** [scrubstring] *)

Lemma lower_upper ch : lower (upper ch) = lower ch.
Proof. destruct ch as [[] [] [] [] [] [] [] []]; vm_compute; congruence. Qed.

Lemma lower_lower ch : lower (lower ch) = lower ch.
Proof. destruct ch as [[] [] [] [] [] [] [] []]; vm_compute; congruence. Qed.

Lemma scrubstring_letters_id w : letters w → scrubstring w = w.
Proof.
  intros Hw. unfold scrubstring. rewrite letters_lower by done.
  induction Hw as [|ch w Hch _ IH]; [done|]. by rewrite filter_cons_True, IH.
Qed.

(** X1. [scrubstring] gives a string of lower-case letters, it changes
    nothing in such a string (so scrubbing twice is scrubbing once), its
    fixed points are exactly the strings of lower-case letters, and its
    result is empty exactly when the string has no ASCII letter. *)
Theorem scrubstring_normal_form (s : chars) :
  letters (scrubstring s) ∧
  scrubstring (scrubstring s) = scrubstring s ∧
  (scrubstring s = s ↔ letters s) ∧
  (scrubstring s = [] ↔ Forall (λ ch, is_alpha ch = false) s).
Proof.
  split; [apply letters_scrubstring|].
  split; [apply scrubstring_letters_id, letters_scrubstring|].
  split.
  - split; [intros <-; apply letters_scrubstring|apply scrubstring_letters_id].
  - split; [|apply scrubstring_no_alpha].
    unfold scrubstring. induction s as [|ch s IH]; [by constructor|].
    cbn [map]. destruct (is_alpha ch) eqn:Hch.
    + rewrite filter_cons_True; [done|].
      by rewrite <-in_lowercase_elem_of, in_lowercase_alpha.
    + rewrite filter_cons_False; [by constructor; auto|].
      rewrite <-in_lowercase_elem_of, in_lowercase_alpha. congruence.
Qed.

(** X2. [scrubstring] works character by character: it distributes over
    concatenation, does not see the case of the letters, and never makes a
    string longer. *)
Theorem scrubstring_pointwise (s1 s2 : chars) :
  scrubstring (s1 ++ s2) = scrubstring s1 ++ scrubstring s2 ∧
  scrubstring (map upper s1) = scrubstring s1 ∧
  scrubstring (map lower s1) = scrubstring s1 ∧
  length (scrubstring s1) ≤ length s1.
Proof.
  unfold scrubstring. repeat split.
  - by rewrite map_app, filter_app.
  - rewrite map_map. f_equal. apply map_ext. apply lower_upper.
  - rewrite map_map. f_equal. apply map_ext. apply lower_lower.
  - rewrite <-(length_map lower s1). apply length_filter.
Qed.

(** ** [getpatterntuple] *)

Lemma getpatterntuple_loop_bounds w : ∀ (letters : gmap ascii nat) tup,
  (∀ c n, letters !! c = Some n → 1 ≤ n ≤ size letters) →
  size letters ≤ length tup →
  (∀ i n, tup !! i = Some n → 1 ≤ n ≤ i + 1) →
  ∀ i n, getpatterntuple_loop w letters tup !! i = Some n → 1 ≤ n ≤ i + 1.
Proof.
  induction w as [|letter w IH]; intros letters tup Hval Hsz Htup; simpl; [done|].
  destruct (letters !! letter) as [n0|] eqn:E.
  - apply IH; [done|rewrite length_app; simpl; lia|].
    intros i n [Hi|[Hge Hi]]%lookup_app_Some; [by apply Htup|].
    apply list_lookup_singleton_Some in Hi as [? <-]. apply Hval in E. lia.
  - apply IH.
    + intros c n. rewrite map_size_insert_None by done. rewrite lookup_insert.
      case_decide; [intros [= <-]; lia|]. intros Hc%Hval. lia.
    + rewrite map_size_insert_None by done. rewrite length_app. simpl. lia.
    + intros i n [Hi|[Hge Hi]]%lookup_app_Some; [by apply Htup|].
      apply list_lookup_singleton_Some in Hi as [? <-]. lia.
Qed.

(** X3. The pattern tuple of any string has the length of the string, two
    of its positions are equal exactly when the characters there are equal
    up to case, the entry at position [i] (from 0) is between 1 and [i + 1],
    and the tuple does not depend on the case of the letters. *)
Theorem getpatterntuple_shape (w : chars) :
  length (getpatterntuple w) = length w ∧
  (∀ i j a b, w !! i = Some a → w !! j = Some b →
     (getpatterntuple w !! i = getpatterntuple w !! j ↔ lower a = lower b)) ∧
  (∀ i n, getpatterntuple w !! i = Some n → 1 ≤ n ≤ i + 1) ∧
  getpatterntuple (map upper w) = getpatterntuple w ∧
  getpatterntuple (map lower w) = getpatterntuple w.
Proof.
  unfold getpatterntuple.
  destruct (getpatterntuple_loop_positions (map lower w)) as [Hlen Hpos].
  split; [by rewrite Hlen, length_map|]. split; [|split; [|split]].
  - intros i j a b Ha Hb. apply Hpos; by rewrite list_lookup_fmap, ?Ha, ?Hb.
  - by apply getpatterntuple_loop_bounds.
  - f_equal. rewrite map_map. apply map_ext, lower_upper.
  - f_equal. rewrite map_map. apply map_ext, lower_lower.
Qed.

(** ** [getregex] *)

(** X4. For a dictionary with letters as values and a candidate of letters,
    the expression of [getregex] matches exactly when the candidate has the
    length of the cipher word and, at every position, a mapped cipher letter
    meets its value and an unmapped one meets a letter that is the value of
    no cipher letter.  Whether two unmapped positions hold the same letter
    is not looked at: the pattern tuples are there for that. *)
Theorem getregex_matches (cipherword plainword : chars) (subs : dict) :
  letters (values subs) → letters plainword →
  ∃ r, getregex cipherword subs = Some r ∧
    (re_match r plainword = true ↔
     length cipherword = length plainword ∧
     ∀ i c p, cipherword !! i = Some c → plainword !! i = Some p →
       subs !! c = Some p ∨
       (subs !! c = None ∧ ∀ c' p', subs !! c' = Some p' → p ≠ p')).
Proof.
  intros Hv Hpw. exists (map (atom_of subs) cipherword).
  split; [by apply getregex_compiled|].
  rewrite re_match_admits, admits_spec by done. apply and_iff_compat_l. split.
  - intros H i c p Hc Hp. apply (H c p). by exists i.
  - intros H c p (i & Hc & Hp). by apply (H i c p).
Qed.

Lemma getregex_matches_witness :
  ∃ r, getregex (str "skmms") {[ "m" := "l" ]} = Some r ∧
    (re_match r (str "balls") = true ↔
     length (str "skmms") = length (str "balls") ∧
     ∀ i c p, str "skmms" !! i = Some c → str "balls" !! i = Some p →
       ({[ "m" := "l" ]} : dict) !! c = Some p ∨
       (({[ "m" := "l" ]} : dict) !! c = None ∧
        ∀ c' p', ({[ "m" := "l" ]} : dict) !! c' = Some p' → p ≠ p')).
Proof.
  apply (getregex_matches (str "skmms") (str "balls") {[ "m" := "l" ]}); by_eval.
Defined.

(** ** The index of candidates *)

Lemma patterns_init_lookup cl tup :
  patterns_init cl !! tup =
    if bool_decide (tup ∈ getpatterntuple <$> cl) then Some [] else None.
Proof.
  unfold patterns_init.
  assert (∀ m : index,
    foldl (λ patterns word, <[getpatterntuple word := []]> patterns) m cl !! tup =
      if bool_decide (tup ∈ getpatterntuple <$> cl) then Some [] else m !! tup) as H.
  { induction cl as [|w cl IH]; intros m; [done|]. cbn [foldl]. rewrite IH.
    rewrite fmap_cons. destruct (decide (tup ∈ getpatterntuple <$> cl)) as [Hin|Hin].
    - rewrite !bool_decide_eq_true_2; [done|by right|done].
    - rewrite (bool_decide_eq_false_2 _ Hin), lookup_insert.
      destruct (decide (getpatterntuple w = tup)) as [Heq|Heq].
      + rewrite bool_decide_eq_true_2; [done|]. rewrite <-Heq. by left.
      + rewrite bool_decide_eq_false_2; [done|].
        intros [?|?]%elem_of_cons; [congruence|done]. }
  rewrite H. by rewrite lookup_empty.
Qed.

Lemma patterns_add_lookup patterns line tup ws1 :
  patterns_add patterns line !! tup = Some ws1 →
  ∃ ws0 extra, patterns !! tup = Some ws0 ∧ ws1 = ws0 ++ extra ∧
    extra `sublist_of` [scrubstring line] ∧
    (NoDup ws0 → NoDup ws1) ∧
    ∀ pw, pw ∈ ws1 ↔
      pw ∈ ws0 ∨ (pw = scrubstring line ∧ getpatterntuple pw = tup).
Proof.
  assert (∀ ws, patterns !! tup = Some ws →
    (getpatterntuple (scrubstring line) = tup → scrubstring line ∈ ws) →
    ∃ ws0 extra, patterns !! tup = Some ws0 ∧ ws = ws0 ++ extra ∧
      extra `sublist_of` [scrubstring line] ∧ (NoDup ws0 → NoDup ws) ∧
      ∀ pw, pw ∈ ws ↔
        pw ∈ ws0 ∨ (pw = scrubstring line ∧ getpatterntuple pw = tup)) as Hsame.
  { intros ws Hws Hin. exists ws, []. rewrite app_nil_r.
    split; [done|]. split; [done|]. split; [apply sublist_nil_l|]. split; [done|].
    intros pw. split; [by left|]. intros [?|[-> Htup]]; auto. }
  unfold patterns_add.
  destruct (patterns !! getpatterntuple (scrubstring line)) as [ws|] eqn:E.
  - case_bool_decide as Hin.
    + intros H. apply Hsame; [done|]. intros Htup. rewrite Htup, H in E. congruence.
    + rewrite lookup_insert. destruct (decide (getpatterntuple (scrubstring line) = tup)) as [Htup|Htup].
      * intros [= <-]. rewrite Htup in E. exists ws, [scrubstring line].
        split; [done|]. split; [done|]. split; [done|]. split.
        -- intros Hnd. apply NoDup_app. split; [done|]. split; [|apply NoDup_singleton].
           by intros x Hx ->%list_elem_of_singleton.
        -- intros pw. rewrite elem_of_app, list_elem_of_singleton.
           split; [intros [?| ->]; auto|]. intros [?|[-> _]]; auto.
      * intros H. apply Hsame; [done|]. by intros ?.
  - intros H. apply Hsame; [done|]. intros Htup. rewrite Htup, H in E. congruence.
Qed.

Lemma foldl_patterns_add_lookup dictfile : ∀ patterns tup ws,
  foldl patterns_add patterns dictfile !! tup = Some ws →
  ∃ ws0 extra, patterns !! tup = Some ws0 ∧ ws = ws0 ++ extra ∧
    extra `sublist_of` (scrubstring <$> dictfile) ∧
    (NoDup ws0 → NoDup ws) ∧
    ∀ pw, pw ∈ ws ↔
      pw ∈ ws0 ∨ (pw ∈ scrubstring <$> dictfile ∧ getpatterntuple pw = tup).
Proof.
  induction dictfile as [|line dictfile IH]; intros patterns tup ws; simpl.
  - intros H. exists ws, []. rewrite app_nil_r. repeat split; auto.
    intros [?|[?%elem_of_nil _]]; done.
  - intros (ws1 & e2 & H1 & -> & Hsub2 & Hnd2 & Hmem2)%IH.
    apply patterns_add_lookup in H1 as (ws0 & e1 & H0 & -> & Hsub1 & Hnd1 & Hmem1).
    exists ws0, (e1 ++ e2). split; [done|]. split; [by rewrite app_assoc|].
    split; [by apply (sublist_app e1 [scrubstring line] e2)|]. split; [auto|].
    intros pw. rewrite Hmem2, Hmem1, elem_of_cons. tauto.
Qed.

Lemma foldl_patterns_add_keys dictfile : ∀ patterns tup,
  is_Some (foldl patterns_add patterns dictfile !! tup) ↔ is_Some (patterns !! tup).
Proof.
  induction dictfile as [|line dictfile IH]; intros patterns tup; simpl; [done|].
  rewrite IH. split; [|apply patterns_add_present].
  intros [ws (ws0 & _ & H0 & _)%patterns_add_lookup]. eauto.
Qed.

(** X5. The index built from the cipher words and the dictionary file: its
    keys are the pattern tuples of the cipher words and no others, and the
    list under a key holds, without repetition and in the order of the
    file, exactly the scrubbed lines of the file that have this pattern
    tuple. *)
Theorem load_patterns_spec (cipherlist dictfile : list chars) (tup : list nat) :
  (is_Some (load_patterns cipherlist dictfile !! tup) ↔
   ∃ w, w ∈ cipherlist ∧ getpatterntuple w = tup) ∧
  ∀ ws, load_patterns cipherlist dictfile !! tup = Some ws →
    NoDup ws ∧ ws `sublist_of` (scrubstring <$> dictfile) ∧
    ∀ pw, pw ∈ ws ↔ pw ∈ scrubstring <$> dictfile ∧ getpatterntuple pw = tup.
Proof.
  unfold load_patterns. split.
  - rewrite foldl_patterns_add_keys, patterns_init_lookup.
    case_bool_decide as Hin; rewrite list_elem_of_fmap in Hin.
    + split; [|eauto]. intros _. destruct Hin as (w & -> & Hw). eauto.
    + split; [by intros [? ?]|]. intros (w & Hw & <-). destruct Hin. eauto.
  - intros ws (ws0 & extra & H0 & -> & Hsub & Hnd & Hmem)%foldl_patterns_add_lookup.
    rewrite patterns_init_lookup in H0. case_bool_decide; [|done].
    injection H0 as <-. simpl in *. split; [apply Hnd, NoDup_nil_2|]. split; [done|].
    intros pw. rewrite Hmem, elem_of_nil. tauto.
Qed.

(** ** The order of the stages *)

Lemma StronglySorted_reverse_flip {A} (R : relation A) l :
  StronglySorted R l → StronglySorted (flip R) (reverse l).
Proof.
  induction 1 as [|x l Hl IH Hx]; [constructor|].
  rewrite reverse_cons. apply StronglySorted_app. split; [|split; [done|by repeat constructor]].
  intros y z Hy ->%list_elem_of_singleton. rewrite Forall_forall in Hx.
  apply Hx. by apply elem_of_reverse.
Qed.

(** X6. The order of the chain: from the stage that is sent to (the first
    to work on a guess) to the stage in front of the collector, the numbers
    of candidates never decrease, so the words with the most candidates
    work last. *)
Theorem run_stages_order (text : chars) (dictfile : list chars) :
  StronglySorted (λ st1 st2, length st1.2 ≤ length st2.2) (run_stages text dictfile).
Proof.
  unfold run_stages, the_stages, sorted_cipherlist.
  set (patterns := load_patterns (cipherlist text) dictfile).
  pose proof (sort_sorted patterns (cipherlist text)) as Hs.
  apply (StronglySorted_reverse_flip
    (λ st1 st2 : chars * list chars, length st2.2 ≤ length st1.2)).
  induction Hs as [|w l _ IH Hw]; [constructor|].
  rewrite fmap_cons. constructor; [done|]. by rewrite Forall_fmap.
Qed.

(** ** The collector, one mapping at a time *)

Lemma observe_loop_missing items : ∀ poss c p,
  (c, p) ∈ items → poss !! c = None → observe_loop items poss = None.
Proof.
  induction items as [|[c0 p0] items IH]; intros poss c p Hin Hc; simpl.
  - by apply elem_of_nil in Hin.
  - unfold possibilities_add. destruct (poss !! c0) as [s0|] eqn:E0; [|done]. simpl.
    apply elem_of_cons in Hin as [[= <- <-]|Hin]; [congruence|].
    apply (IH _ c p Hin). rewrite lookup_insert_ne; [done|]. intros ->. congruence.
Qed.

Lemma observe_is_Some d poss :
  is_Some (observe d poss) ↔ ∀ c, is_Some (d !! c) → is_Some (poss !! c).
Proof.
  split.
  - intros [poss' Hobs] c [p Hp]. destruct (poss !! c) eqn:E; [eauto|].
    unfold observe in Hobs. rewrite (observe_loop_missing _ _ c p) in Hobs; [done| |done].
    by apply elem_of_map_to_list.
  - intros Hkeys. destruct (observe_spec d poss) as (poss' & -> & _); eauto.
Qed.

Lemma observe_lookup d poss poss' c :
  observe d poss = Some poss' → poss' !! c = observe_at d c <$> poss !! c.
Proof.
  intros Hobs. destruct (observe_spec d poss) as (poss'' & Hobs' & Hext).
  { intros c' p Hp. apply (proj1 (observe_is_Some d poss)); eauto. }
  rewrite Hobs in Hobs'. injection Hobs' as <-. specialize (Hext c).
  destruct (poss !! c) as [s|], (poss' !! c) as [s'|]; try done.
  simpl. f_equal. apply set_eq. intros p. rewrite Hext. unfold observe_at.
  destruct (d !! c) as [q|]; [|split; [by intros [?|?]|by left]].
  rewrite elem_of_union, elem_of_singleton.
  split; (intros [?|?]; [by left|right; congruence]).
Qed.

(** X7. The collector takes a mapping exactly when each of its keys is a
    key of [possibilities] (else the lookup raises [KeyError]); it then adds
    the value of each key to the set of that key, and changes nothing
    else: no key is added or lost. *)
Theorem observe_keys (d : dict) (poss : possibilities) :
  (observe d poss = None ↔ ∃ c, is_Some (d !! c) ∧ poss !! c = None) ∧
  ∀ poss', observe d poss = Some poss' →
    ∀ c, poss' !! c = observe_at d c <$> poss !! c.
Proof.
  split; [|intros poss' Hobs c; by apply observe_lookup].
  split.
  - intros Hnone.
    destruct (decide (map_Forall (λ c _, is_Some (poss !! c)) d)) as [Hall|Hex].
    + assert (is_Some (observe d poss)) as [? ?]; [|congruence].
      apply observe_is_Some. intros c [p Hp]. by apply (Hall c p).
    + apply map_not_Forall in Hex; [|apply _]. destruct Hex as (c & p & Hp & Hno).
      exists c. split; [eauto|]. destruct (poss !! c); [destruct Hno; eauto|done].
  - intros (c & Hc & Hno). destruct (observe d poss) as [poss'|] eqn:E; [|done].
    assert (is_Some (poss !! c)) as [? ?]; [|congruence].
    apply (proj1 (observe_is_Some d poss)); eauto.
Qed.

(** X8. The collector does not count and does not see the order: a mapping
    taken a second time changes nothing, and two mappings taken in either
    order leave the same sets (or raise both ways). *)
Theorem observe_idempotent_commutative (d d1 d2 : dict) (poss : possibilities) :
  (∀ poss', observe d poss = Some poss' → observe d poss' = Some poss') ∧
  observe d1 poss ≫= observe d2 = observe d2 poss ≫= observe d1.
Proof.
  assert (Hkeep : ∀ d0 p0 p0' c, observe d0 p0 = Some p0' →
            (is_Some (p0' !! c) ↔ is_Some (p0 !! c))).
  { intros d0 p0 p0' c Hobs. rewrite (observe_lookup d0 p0 p0' c Hobs).
    by rewrite fmap_is_Some. }
  split.
  - intros poss' Hobs.
    assert (is_Some (observe d poss')) as [poss'' Hobs'].
    { apply observe_is_Some. intros c Hc. apply (Hkeep d poss poss' c Hobs).
      apply (proj1 (observe_is_Some d poss)); eauto. }
    rewrite Hobs'. f_equal. apply map_eq. intros c.
    rewrite (observe_lookup _ _ _ c Hobs'), (observe_lookup _ _ _ c Hobs).
    destruct (poss !! c) as [s|]; [|done]. simpl. f_equal. unfold observe_at.
    destruct (d !! c); [|done].
    apply set_eq. intros x. rewrite !elem_of_union. tauto.
  - assert (Hfail : ∀ da db p0 pa, observe da p0 = Some pa → observe db p0 = None →
              observe db pa = None).
    { intros da db p0 pa Ha Hb. destruct (observe db pa) as [pb|] eqn:E; [|done].
      assert (is_Some (observe db p0)) as [? ?]; [|congruence].
      apply observe_is_Some. intros c Hc. apply (Hkeep da p0 pa c Ha).
      apply (proj1 (observe_is_Some db pa)); eauto. }
    destruct (observe d1 poss) as [p1|] eqn:E1, (observe d2 poss) as [p2|] eqn:E2; simpl.
    + assert (is_Some (observe d2 p1)) as [p12 H12].
      { apply observe_is_Some. intros c Hc. apply (Hkeep d1 poss p1 c E1).
        apply (proj1 (observe_is_Some d2 poss)); eauto. }
      assert (is_Some (observe d1 p2)) as [p21 H21].
      { apply observe_is_Some. intros c Hc. apply (Hkeep d2 poss p2 c E2).
        apply (proj1 (observe_is_Some d1 poss)); eauto. }
      rewrite H12, H21. f_equal. apply map_eq. intros c.
      rewrite (observe_lookup _ _ _ c H12), (observe_lookup _ _ _ c E1),
        (observe_lookup _ _ _ c H21), (observe_lookup _ _ _ c E2).
      destruct (poss !! c) as [s|]; [|done]. simpl. f_equal. unfold observe_at.
      destruct (d1 !! c), (d2 !! c); try done.
      apply set_eq. intros x. rewrite !elem_of_union. tauto.
    + by apply (Hfail d1 d2 poss).
    + symmetry. by apply (Hfail d2 d1 poss).
    + done.
Qed.

(** X9. Certainty only goes one way: the collector takes a mapping whose
    keys it has, and then the set of a cipher letter contains the set it
    had, so a letter that had two proposals still resolves to the
    placeholder, and a letter that had a proposal does not become
    unknown. *)
Theorem observe_monotone (d : dict) (poss : possibilities) (c : ascii)
    (s : gset ascii) :
  map_Forall (λ k _, is_Some (poss !! k)) d → poss !! c = Some s →
  ∃ poss' s', observe d poss = Some poss' ∧ poss' !! c = Some s' ∧ s ⊆ s' ∧
    (1 < size s → finaldict poss' !! c = Some "_") ∧
    (s ≠ ∅ → finaldict poss' !! c ≠ None).
Proof.
  intros Hkeys Hs.
  assert (is_Some (observe d poss)) as [poss' Hobs].
  { apply observe_is_Some. intros k [p Hp]. by apply (Hkeys k p). }
  exists poss', (observe_at d c s). split; [done|].
  rewrite (observe_lookup _ _ _ c Hobs), Hs. split; [done|].
  assert (s ⊆ observe_at d c s) as Hsub.
  { unfold observe_at. destruct (d !! c); [apply union_subseteq_l|done]. }
  split; [done|]. apply subseteq_size in Hsub as Hsz.
  rewrite finaldict_lookup, (observe_lookup _ _ _ c Hobs), Hs. simpl.
  split.
  - intros Hbig. destruct (size (observe_at d c s)) as [|[|n]]; [lia|lia|done].
  - intros Hne. assert (size s ≠ 0) as Hs0.
    { intros H0%size_empty_iff. by apply leibniz_equiv in H0. }
    destruct (size (observe_at d c s)) as [|[|n]] eqn:Hsz'; [lia| |done].
    destruct (size_1_singleton _ Hsz') as [q ->]. by rewrite elements_singleton.
Qed.

Lemma observe_monotone_witness :
  let poss : possibilities := <["x" := {["a"; "b"]}]> possibilities_init in
  let d : dict := {[ "x" := "c" ]} in
  ∃ poss' s', observe d poss = Some poss' ∧ poss' !! "x" = Some s' ∧
    ({["a"; "b"]} : gset ascii) ⊆ s' ∧
    (1 < size ({["a"; "b"]} : gset ascii) → finaldict poss' !! "x" = Some "_") ∧
    (({["a"; "b"]} : gset ascii) ≠ ∅ → finaldict poss' !! "x" ≠ None).
Proof.
  apply (observe_monotone {[ "x" := "c" ]}
           (<["x" := {["a"; "b"]}]> possibilities_init) "x" {["a"; "b"]}).
  - by_eval.
  - vm_compute. reflexivity.
Defined.

(** A chain that is shorter than the depth that is left never meets the
    bound. *)
Lemma chain_within_chain {St : Type} (order : list chars) (patterns : index)
    (target : coroutine St) :
  ∀ depth, length order < depth →
    chain_within order patterns target depth = chain order patterns target.
Proof.
  unfold chain_within, chain.
  induction order as [|w order IH] using rev_ind; intros depth Hlen.
  - simpl. destruct depth; [simpl in Hlen; lia|done].
  - rewrite length_app in Hlen. simpl in Hlen. rewrite !foldl_app. simpl.
    destruct depth as [|depth]; [lia|]. simpl. rewrite IH by lia. done.
Qed.

Lemma length_sorted_cipherlist text dictfile :
  length (sorted_cipherlist text dictfile) = length (cipherlist text).
Proof. unfold sorted_cipherlist. by rewrite sort_perm. Qed.

Lemma run_within_run {St : Type} depth text dictfile (target : coroutine St) s :
  length (cipherlist text) < depth →
  run_within depth text dictfile target s = run text dictfile target s.
Proof.
  intros Hlen. unfold run_within, run, send_empty_within, send_empty.
  rewrite chain_within_chain; [done|]. by rewrite length_sorted_cipherlist.
Qed.

Lemma decrypt_within_decrypt depth text dictfile :
  length (cipherlist text) < depth →
  decrypt_within depth text dictfile = decrypt text dictfile.
Proof. intros Hlen. unfold decrypt_within, decrypt. by rewrite run_within_run. Qed.

Lemma resolution_within_resolution depth text dictfile :
  length (cipherlist text) < depth →
  resolution_within depth text dictfile = resolution text dictfile.
Proof. intros Hlen. unfold resolution_within, resolution. by rewrite run_within_run. Qed.

Lemma observed_within_observed depth text dictfile :
  length (cipherlist text) < depth →
  observed_within depth text dictfile = observed text dictfile.
Proof. intros Hlen. unfold observed_within, observed. by rewrite run_within_run. Qed.

(** Three words of one letter and the word ["i"] in the file: every stage
    has a candidate, and the third level of depth is used up before the
    collector is reached. *)
Example depth_used_up :
  decrypt_within 3 (str "x x x") [str "i"] = None ∧
  decrypt_within 4 (str "x x x") [str "i"] = Some (str "i i i").
Proof. split; vm_compute; reflexivity. Qed.

(** ** [prettyprint], further *)

Lemma alpha_cases ch :
  is_alpha ch = in_lowercase ch || bool_decide (ch ∈ ascii_uppercase).
Proof. destruct ch as [[] [] [] [] [] [] [] []]; vm_compute; reflexivity. Qed.

Lemma upper_lowercase_bool v :
  in_lowercase v = true →
  bool_decide (upper v ∈ ascii_uppercase) = true ∧ lower (upper v) = v.
Proof. destruct v as [[] [] [] [] [] [] [] []]; vm_compute; intros; try done. Qed.

Lemma upper_lowercase v :
  v ∈ ascii_lowercase → upper v ∈ ascii_uppercase ∧ lower (upper v) = v.
Proof.
  intros [H1 H2]%in_lowercase_elem_of%upper_lowercase_bool.
  by apply bool_decide_eq_true in H1.
Qed.

Lemma lower_uppercase_bool ch :
  bool_decide (ch ∈ ascii_uppercase) = true →
  in_lowercase (lower ch) = true ∧ upper (lower ch) = ch.
Proof. destruct ch as [[] [] [] [] [] [] [] []]; vm_compute; intros; try done. Qed.

Lemma lower_uppercase ch :
  ch ∈ ascii_uppercase → lower ch ∈ ascii_lowercase ∧ upper (lower ch) = ch.
Proof.
  intros H. apply (bool_decide_eq_true_2 (ch ∈ ascii_uppercase)) in H.
  apply lower_uppercase_bool in H as [H1 H2]. by apply in_lowercase_elem_of in H1.
Qed.

Lemma alpha_lower_lowercase ch : is_alpha ch = false ↔ lower ch ∉ ascii_lowercase.
Proof.
  rewrite <-in_lowercase_alpha, <-in_lowercase_elem_of. by destruct (in_lowercase (lower ch)).
Qed.

(** X10. [prettyprint] works character by character: a text in two parts
    is rendered part by part, and the empty table changes nothing. *)
Theorem prettyprint_compose (s1 s2 : chars) (table : dict) :
  prettyprint (s1 ++ s2) table =
    (o1 ← prettyprint s1 table; o2 ← prettyprint s2 table; Some (o1 ++ o2)) ∧
  prettyprint s1 ∅ = Some s1.
Proof.
  split; [|apply prettyprint_empty].
  rewrite !prettyprint_render. simpl. by rewrite map_app.
Qed.

(** ** What a run prints *)

Lemma finaldict_reachable ds poss c v :
  Forall letter_map ds → fold_opt observe ds possibilities_init = Some poss →
  finaldict poss !! c = Some v →
  c ∈ ascii_lowercase ∧ (v = "_" ∨ v ∈ ascii_lowercase) ∧
  ∃ d p, d ∈ ds ∧ d !! c = Some p ∧ (v = "_" ∨ v = p).
Proof.
  intros Hds Hfold. destruct (fold_observe_init ds Hds) as (poss1 & Hfold1 & Hposs).
  rewrite Hfold in Hfold1. injection Hfold1 as <-.
  rewrite finaldict_lookup, Hposs. destruct (in_lowercase c) eqn:Hc; [|done].
  apply in_lowercase_elem_of in Hc. simpl.
  set (s := list_to_set (omap (λ d : dict, d !! c) ds) : gset ascii).
  assert (∀ p, p ∈ s → ∃ d, d ∈ ds ∧ d !! c = Some p) as Hmem.
  { intros p. unfold s. by rewrite elem_of_list_to_set, list_elem_of_omap. }
  rewrite Forall_forall in Hds.
  destruct (size s) as [|[|n]] eqn:Hsz; [done| |].
  - destruct (size_1_singleton s Hsz) as [q Hq]. rewrite Hq, elements_singleton.
    intros [= <-]. destruct (Hmem q) as (d & Hd & Hcq).
    { rewrite Hq. by apply elem_of_singleton. }
    split; [done|]. split; [right; by destruct (Hds d Hd c q Hcq)|]. eauto 6.
  - intros [= <-]. split; [done|]. split; [by left|].
    destruct (size_pos_elem_of s) as [p Hp]; [lia|].
    destruct (Hmem p Hp) as (d & Hd & Hcp). eauto 6.
Qed.

Lemma run_final text dictfile :
  ∃ poss,
    Forall good_map (chain_out (run_stages text dictfile) ∅) ∧
    fold_opt observe (chain_out (run_stages text dictfile) ∅) possibilities_init
      = Some poss ∧
    resolution text dictfile = Some (finaldict poss) ∧
    decrypt text dictfile = prettyprint text (finaldict poss).
Proof.
  destruct (resolution_order text dictfile) as (h & poss & _ & Hfold & Hres & Hdec).
  exists poss. split; [|done].
  destruct (the_stages_wf _ _ (letters_sorted_cipherlist text dictfile)
              (load_patterns_ok (cipherlist text) dictfile)) as [Hwf Hsh].
  apply Forall_forall. intros m Hm.
  by apply (chain_out_good _ Hwf Hsh ∅ m good_map_empty).
Qed.

Lemma good_letter_maps ds : Forall good_map ds → Forall letter_map ds.
Proof. intros H. eapply Forall_impl; [exact H|]. by intros d [? _]. Qed.

(** X11. When the text has fewer words than there are levels of depth
    left, decrypting raises no error, whatever the dictionary file:
    something is printed, of the length of the text, in which every
    character that is not an ASCII letter is kept, a lower-case letter
    gives a lower-case letter or the placeholder, and an upper-case letter
    an upper-case letter or the placeholder. *)
Theorem decrypt_shape (text : chars) (dictfile : list chars) (depth : nat) :
  length (cipherlist text) < depth →
  ∃ out, decrypt_within depth text dictfile = Some out ∧ length out = length text ∧
    ∀ i ch, text !! i = Some ch →
      ∃ o, out !! i = Some o ∧
        (is_alpha ch = false → o = ch) ∧
        (ch ∈ ascii_lowercase → o = "_" ∨ o ∈ ascii_lowercase) ∧
        (ch ∈ ascii_uppercase → o = "_" ∨ o ∈ ascii_uppercase).
Proof.
  intros Hdepth. rewrite decrypt_within_decrypt by done.
  destruct (run_final text dictfile) as (poss & Hgood%good_letter_maps & Hfold & _ & Hdec).
  exists (map (render (finaldict poss)) text).
  split; [by rewrite Hdec, prettyprint_render|]. split; [apply length_map|].
  intros i ch Hi. exists (render (finaldict poss) ch).
  split; [by rewrite list_lookup_fmap, Hi|]. unfold render.
  destruct (finaldict poss !! lower ch) as [v|] eqn:Hv.
  - destruct (finaldict_reachable _ _ _ _ Hgood Hfold Hv) as (Hl & Hval & _).
    split; [|split].
    + intros Hna%alpha_lower_lowercase. done.
    + intros Hch%in_lowercase_elem_of. by rewrite Hch.
    + intros Hch. rewrite (uppercase_not_lowercase ch Hch).
      destruct Hval as [->|Hval]; [by left|right]. by apply upper_lowercase.
  - split; [done|]. split; [by right|by right].
Qed.

Lemma decrypt_shape_witness :
  ∃ out,
    decrypt_within 3 (str "Dog, cat!") [str "dog"; str "cat"; str "cot"] = Some out ∧
    length out = length (str "Dog, cat!") ∧
    ∀ i ch, str "Dog, cat!" !! i = Some ch →
      ∃ o, out !! i = Some o ∧
        (is_alpha ch = false → o = ch) ∧
        (ch ∈ ascii_lowercase → o = "_" ∨ o ∈ ascii_lowercase) ∧
        (ch ∈ ascii_uppercase → o = "_" ∨ o ∈ ascii_uppercase).
Proof.
  apply (decrypt_shape (str "Dog, cat!") [str "dog"; str "cat"; str "cot"] 3).
  vm_compute. lia.
Defined.

(** ** Encrypting *)

Lemma cipher_loop_extend letters : ∀ n k cipher,
  k + n = length letters → length letters ≤ length ascii_lowercase →
  cipher_loop (seq k n) letters cipher =
    Some (foldl (λ d cp, <[cp.1 := cp.2]> d) cipher
            (zip (drop k ascii_lowercase) (drop k letters))).
Proof.
  induction n as [|n IH]; intros k cipher Hk Hlen; simpl.
  - rewrite (drop_ge letters) by lia. by destruct (drop k ascii_lowercase).
  - destruct (lookup_lt_is_Some_2 ascii_lowercase k) as [c Hc]; [lia|].
    destruct (lookup_lt_is_Some_2 letters k) as [p Hp]; [lia|].
    rewrite Hc, Hp. simpl. rewrite IH by lia.
    by rewrite (drop_S _ _ _ Hc), (drop_S _ _ _ Hp).
Qed.

Lemma make_cipher_extend letters :
  length letters ≤ length ascii_lowercase →
  make_cipher letters = Some (extend ascii_lowercase letters ∅).
Proof.
  intros Hlen. unfold make_cipher. rewrite cipher_loop_extend by (done || lia).
  by rewrite !drop_0.
Qed.

Lemma NoDup_ascii_lowercase : NoDup ascii_lowercase.
Proof. apply (bool_decide_unpack _). vm_compute. exact I. Qed.

Lemma NoDup_same_shape (w1 w2 : chars) :
  NoDup w1 → NoDup w2 → length w1 = length w2 → same_shape w1 w2.
Proof.
  intros H1 H2 Hlen. split; [done|]. intros i j a b a' b' Ha Hb Ha' Hb'. split.
  - intros <-. rewrite (NoDup_lookup _ _ _ _ H1 Ha Hb) in Ha'. congruence.
  - intros <-. rewrite (NoDup_lookup _ _ _ _ H2 Ha' Hb') in Ha. congruence.
Qed.

Lemma cross_empty cw pw : cross ∅ cw pw.
Proof. intros c p c' q _. by rewrite lookup_empty. Qed.

Section shuffled.
Context (letters : chars) (Hperm : letters ≡ₚ ascii_lowercase).

Lemma shuffled_shape : same_shape ascii_lowercase letters.
Proof.
  apply NoDup_same_shape; [apply NoDup_ascii_lowercase| |by rewrite Hperm].
  rewrite Hperm. apply NoDup_ascii_lowercase.
Qed.

Lemma cipher_lookup c p :
  extend ascii_lowercase letters ∅ !! c = Some p ↔ pairs ascii_lowercase letters c p.
Proof.
  rewrite extend_lookup; [|apply shuffled_shape|apply cross_empty].
  rewrite lookup_empty. split; [by intros [?|?]|by right].
Qed.

Lemma inverse_key_lookup c p :
  inverse_key letters !! p = Some c ↔ extend ascii_lowercase letters ∅ !! c = Some p.
Proof.
  unfold inverse_key.
  rewrite extend_lookup; [|apply same_shape_sym, shuffled_shape|apply cross_empty].
  rewrite cipher_lookup, lookup_empty. unfold pairs.
  split; [intros [?|(i & ? & ?)]; [done|eauto]|intros (i & ? & ?); eauto].
Qed.

Lemma cipher_total c :
  c ∈ ascii_lowercase →
  ∃ p, extend ascii_lowercase letters ∅ !! c = Some p ∧ p ∈ ascii_lowercase.
Proof.
  intros [i Hi]%list_elem_of_lookup.
  destruct (lookup_lt_is_Some_2 letters i) as [p Hp].
  { rewrite Hperm. by eapply lookup_lt_Some. }
  exists p. split; [apply cipher_lookup; by exists i|].
  rewrite <-Hperm. by eapply list_elem_of_lookup_2.
Qed.

Lemma cipher_letter_map : letter_map (extend ascii_lowercase letters ∅).
Proof.
  intros c p (i & Hc & Hp)%cipher_lookup. split.
  - by eapply list_elem_of_lookup_2.
  - rewrite <-Hperm. by eapply list_elem_of_lookup_2.
Qed.

Lemma cipher_injective : injective (extend ascii_lowercase letters ∅).
Proof.
  apply extend_injective; [apply injective_empty|apply shuffled_shape|apply cross_empty].
Qed.

Lemma render_round_trip ch :
  render (inverse_key letters) (render (extend ascii_lowercase letters ∅) ch) = ch.
Proof.
  set (cipher := extend ascii_lowercase letters ∅).
  assert (∀ k, is_alpha k = false → inverse_key letters !! lower k = None) as Hkey.
  { intros k Hk%alpha_lower_lowercase.
    destruct (inverse_key letters !! lower k) as [c|] eqn:E; [|done].
    apply inverse_key_lookup, cipher_letter_map in E as [_ ?]. done. }
  unfold render at 2. destruct (cipher !! lower ch) as [v|] eqn:Hv.
  - destruct (cipher_letter_map _ _ Hv) as [Hl Hvl].
    destruct (in_lowercase ch) eqn:Hch.
    + apply in_lowercase_elem_of in Hch as Hch'. rewrite (lower_lowercase ch Hch') in Hv.
      unfold render. rewrite (lower_lowercase v Hvl).
      rewrite (proj2 (inverse_key_lookup ch v) Hv).
      apply in_lowercase_elem_of in Hvl. by rewrite Hvl.
    + destruct (upper_lowercase v Hvl) as [Hup Hlu]. unfold render. rewrite Hlu.
      rewrite (proj2 (inverse_key_lookup (lower ch) v) Hv).
      rewrite (uppercase_not_lowercase _ Hup).
      assert (ch ∈ ascii_uppercase) as Hcu.
      { apply in_lowercase_elem_of in Hl. rewrite in_lowercase_alpha, alpha_cases, Hch in Hl.
        by apply bool_decide_eq_true in Hl. }
      by apply lower_uppercase.
  - assert (is_alpha ch = false) as Hna.
    { apply alpha_lower_lowercase. intros [p [Hp _]]%cipher_total. unfold cipher in Hv. congruence. }
    unfold render. by rewrite (Hkey ch Hna).
Qed.
End shuffled.

(** X12. Whatever the shuffle leaves, the cipher of the encrypt mode is a
    bijection of the alphabet: its keys are the 26 lower-case letters, its
    values are lower-case letters, and no two letters have the same value.
    (A list of more than 26 characters would raise [IndexError].) *)
Theorem make_cipher_bijection (letters : chars) :
  (letters ≡ₚ ascii_lowercase →
   ∃ cipher, make_cipher letters = Some cipher ∧
     (∀ c, is_Some (cipher !! c) ↔ c ∈ ascii_lowercase) ∧
     (∀ c p, cipher !! c = Some p → p ∈ ascii_lowercase) ∧
     (∀ p, p ∈ ascii_lowercase → ∃ c, cipher !! c = Some p) ∧
     injective cipher) ∧
  (length ascii_lowercase < length letters → make_cipher letters = None).
Proof.
  split.
  - intros Hperm. exists (extend ascii_lowercase letters ∅).
    split; [apply make_cipher_extend; by rewrite Hperm|]. split; [|split; [|split]].
    + intros c. split.
      * intros [p Hp]. by destruct (cipher_letter_map letters Hperm c p Hp).
      * intros Hc. destruct (cipher_total letters Hperm c Hc) as (p & Hp & _). eauto.
    + intros c p Hp. by destruct (cipher_letter_map letters Hperm c p Hp).
    + intros p Hp. rewrite <-Hperm in Hp. apply list_elem_of_lookup in Hp as [i Hi].
      destruct (lookup_lt_is_Some_2 ascii_lowercase i) as [c Hc].
      { rewrite <-Hperm. by eapply lookup_lt_Some. }
      exists c. apply cipher_lookup; [done|]. by exists i.
    + by apply cipher_injective.
  - intros Hlong. unfold make_cipher.
    assert (∀ n k cipher, k ≤ length ascii_lowercase → length ascii_lowercase < k + n →
              length letters = k + n → cipher_loop (seq k n) letters cipher = None) as H.
    { induction n as [|n IH]; intros k cipher Hk Hkn Hlen; simpl; [lia|].
      destruct (decide (k = length ascii_lowercase)) as [->|Hne].
      - by rewrite (lookup_ge_None_2 ascii_lowercase) by done.
      - destruct (lookup_lt_is_Some_2 ascii_lowercase k) as [c ->]; [lia|].
        destruct (lookup_lt_is_Some_2 letters k) as [p ->]; [lia|]. simpl.
        apply IH; lia. }
    apply H; lia.
Qed.

Lemma make_cipher_bijection_witness :
  (∃ cipher, make_cipher (reverse ascii_lowercase) = Some cipher ∧
     (∀ c, is_Some (cipher !! c) ↔ c ∈ ascii_lowercase) ∧
     (∀ c p, cipher !! c = Some p → p ∈ ascii_lowercase) ∧
     (∀ p, p ∈ ascii_lowercase → ∃ c, cipher !! c = Some p) ∧
     injective cipher) ∧
  make_cipher (ascii_lowercase ++ str "a") = None.
Proof.
  split.
  - apply (proj1 (make_cipher_bijection (reverse ascii_lowercase))).
    apply reverse_Permutation.
  - apply (proj2 (make_cipher_bijection (ascii_lowercase ++ str "a"))).
    vm_compute. lia.
Defined.

(** X13. Round trip of the encrypt mode: the text encrypted with the cipher
    of any shuffle has the length of the text, and rendering it with the
    table that maps each cipher letter back gives the text again, case and
    punctuation included. *)
Theorem encrypt_round_trip (text letters : chars) :
  letters ≡ₚ ascii_lowercase →
  ∃ cipher ct,
    make_cipher letters = Some cipher ∧ encrypt text letters = Some ct ∧
    length ct = length text ∧
    (∀ c p, inverse_key letters !! p = Some c ↔ cipher !! c = Some p) ∧
    prettyprint ct (inverse_key letters) = Some text.
Proof.
  intros Hperm. exists (extend ascii_lowercase letters ∅).
  exists (map (render (extend ascii_lowercase letters ∅)) text).
  assert (make_cipher letters = Some (extend ascii_lowercase letters ∅)) as Hmk.
  { apply make_cipher_extend. by rewrite Hperm. }
  split; [done|]. split; [|split; [apply length_map|split]].
  - unfold encrypt. rewrite Hmk. simpl. apply prettyprint_render.
  - intros c p. by apply inverse_key_lookup.
  - rewrite prettyprint_render, map_map. f_equal.
    rewrite <-(map_id text) at 2. apply map_ext. intros ch. by apply render_round_trip.
Qed.

Lemma encrypt_round_trip_witness :
  ∃ cipher ct,
    make_cipher (reverse ascii_lowercase) = Some cipher ∧
    encrypt (str "Hello, World!") (reverse ascii_lowercase) = Some ct ∧
    length ct = length (str "Hello, World!") ∧
    (∀ c p, inverse_key (reverse ascii_lowercase) !! p = Some c ↔ cipher !! c = Some p) ∧
    prettyprint ct (inverse_key (reverse ascii_lowercase)) = Some (str "Hello, World!").
Proof.
  apply (encrypt_round_trip (str "Hello, World!") (reverse ascii_lowercase)).
  apply reverse_Permutation.
Defined.

(** ** Words of an encrypted text *)

Lemma lowercase_alpha v : v ∈ ascii_lowercase → is_alpha v = true.
Proof.
  intros H%in_lowercase_elem_of. by rewrite alpha_cases, H.
Qed.

Lemma uppercase_alpha v : v ∈ ascii_uppercase → is_alpha v = true.
Proof.
  intros H. rewrite alpha_cases. apply orb_true_iff. right. by apply bool_decide_eq_true.
Qed.

Lemma alpha_lower ch : is_alpha ch = true → lower ch ∈ ascii_lowercase.
Proof. intros H. by rewrite <-in_lowercase_elem_of, in_lowercase_alpha. Qed.

Lemma alpha_not_lowercase ch :
  is_alpha ch = true → in_lowercase ch = false → ch ∈ ascii_uppercase.
Proof.
  intros Ha Hl. rewrite alpha_cases, Hl in Ha. by apply bool_decide_eq_true in Ha.
Qed.

Section tables.
Context (table : dict).
Context (Hkeys : ∀ c, c ∈ ascii_lowercase → ∃ p, table !! c = Some p ∧ p ∈ ascii_lowercase).
Context (Hdom : ∀ c p, table !! c = Some p → c ∈ ascii_lowercase).

Lemma render_alpha ch :
  is_alpha ch = true →
  is_alpha (render table ch) = true ∧
  lower (render table ch) = apply_table table (lower ch) ∧
  apply_table table (lower ch) ∈ ascii_lowercase.
Proof.
  intros Ha. destruct (Hkeys (lower ch) (alpha_lower ch Ha)) as (v & Hv & Hvl).
  unfold render, apply_table. rewrite Hv. simpl. destruct (in_lowercase ch) eqn:Hch.
  - split; [by apply lowercase_alpha|]. split; [by apply lower_lowercase|done].
  - destruct (upper_lowercase v Hvl) as [Hup Hlu].
    split; [by apply uppercase_alpha|]. done.
Qed.

Lemma render_not_alpha ch : is_alpha ch = false → render table ch = ch.
Proof.
  intros Hna%alpha_lower_lowercase. unfold render.
  destruct (table !! lower ch) as [v|] eqn:Hv; [|done]. by apply Hdom in Hv.
Qed.

Lemma render_space ch : render table ch = " " ↔ ch = " ".
Proof.
  split.
  - intros Hr. destruct (is_alpha ch) eqn:Ha.
    + destruct (render_alpha ch Ha) as [Hra _]. by rewrite Hr in Hra.
    + by rewrite render_not_alpha in Hr.
  - intros ->. by apply render_not_alpha.
Qed.

Lemma split_loop_render text : ∀ cur,
  split_loop (map (render table) text) (map (render table) cur)
    = map (map (render table)) (split_loop text cur).
Proof.
  induction text as [|ch text IH]; intros cur; [done|]. cbn [map split_loop].
  destruct (decide (ch = " ")) as [->|Hne].
  - rewrite (proj2 (render_space " ") eq_refl), !bool_decide_eq_true_2 by done.
    cbn [map]. f_equal. apply (IH []).
  - rewrite !bool_decide_eq_false_2; [|done|by rewrite render_space].
    rewrite <-IH. by rewrite map_app.
Qed.

Lemma scrubstring_render w :
  scrubstring (map (render table) w) = map (apply_table table) (scrubstring w).
Proof.
  unfold scrubstring. induction w as [|ch w IH]; [done|]. cbn [map].
  destruct (is_alpha ch) eqn:Ha.
  - destruct (render_alpha ch Ha) as (_ & Hl & Hin).
    rewrite (filter_cons_True _ (lower ch)) by by apply alpha_lower.
    rewrite filter_cons_True by by rewrite Hl. cbn [map]. by rewrite Hl, IH.
  - rewrite (render_not_alpha ch Ha).
    rewrite !filter_cons_False; [done|by apply alpha_lower_lowercase..].
Qed.

Lemma cipherlist_render text :
  cipherlist (map (render table) text)
    = map (map (apply_table table)) (cipherlist text).
Proof.
  unfold cipherlist, split.
  change (split_loop (map (render table) text) [])
    with (split_loop (map (render table) text) (map (render table) [])).
  rewrite (split_loop_render text []). generalize (split_loop text []). intros l.
  induction l as [|w l IH]; [done|]. rewrite !fmap_cons, scrubstring_render.
  destruct (scrubstring w) as [|c w'] eqn:E.
  - rewrite !filter_cons_False by naive_solver. exact IH.
  - rewrite !filter_cons_True by done. cbn [map]. f_equal. exact IH.
Qed.

Lemma getpatterntuple_apply_table w :
  (∀ a b, a ∈ ascii_lowercase → b ∈ ascii_lowercase →
     apply_table table a = apply_table table b → a = b) →
  letters w → getpatterntuple (map (apply_table table) w) = getpatterntuple w.
Proof.
  intros Hinj Hw. unfold getpatterntuple.
  assert (letters (map (apply_table table) w)) as Hfw.
  { apply Forall_fmap. eapply Forall_impl; [exact Hw|]. intros c Hc. simpl.
    destruct (Hkeys c Hc) as (p & Hp & Hpl). unfold apply_table. by rewrite Hp. }
  rewrite !letters_lower by done.
  by apply (getpatterntuple_loop_rename _ (λ c, c ∈ ascii_lowercase)).
Qed.
End tables.

Lemma apply_table_injective table :
  injective table →
  (∀ c, c ∈ ascii_lowercase → ∃ p, table !! c = Some p ∧ p ∈ ascii_lowercase) →
  ∀ a b, a ∈ ascii_lowercase → b ∈ ascii_lowercase →
    apply_table table a = apply_table table b → a = b.
Proof.
  intros Hinj Hkeys a b Ha Hb. unfold apply_table.
  destruct (Hkeys a Ha) as (p & Hp & _), (Hkeys b Hb) as (q & Hq & _).
  rewrite Hp, Hq. simpl. intros <-. by apply (Hinj a b p).
Qed.

(** X14. Encrypting keeps the words and their patterns: the cipher list of
    the encrypted text is the cipher list of the text with the cipher
    applied letter for letter, and the pattern tuples of the words are the
    ones of the text, word for word. *)
Theorem encrypt_keeps_patterns (text letters : chars) :
  letters ≡ₚ ascii_lowercase →
  ∃ cipher ct,
    make_cipher letters = Some cipher ∧ encrypt text letters = Some ct ∧
    cipherlist ct = map (map (apply_table cipher)) (cipherlist text) ∧
    getpatterntuple <$> cipherlist ct = getpatterntuple <$> cipherlist text.
Proof.
  intros Hperm. set (cipher := extend ascii_lowercase letters ∅).
  assert (make_cipher letters = Some cipher) as Hmk.
  { apply make_cipher_extend. by rewrite Hperm. }
  pose proof (cipher_total letters Hperm) as Hkeys. fold cipher in Hkeys.
  assert (∀ c p, cipher !! c = Some p → c ∈ ascii_lowercase) as Hdom.
  { intros c p Hp. by destruct (cipher_letter_map letters Hperm c p Hp). }
  exists cipher, (map (render cipher) text). split; [done|]. split.
  { unfold encrypt. rewrite Hmk. simpl. apply prettyprint_render. }
  rewrite (cipherlist_render cipher Hkeys Hdom). split; [done|].
  rewrite <-list_fmap_compose. apply Forall_fmap_ext_1.
  eapply Forall_impl; [apply letters_cipherlist|]. intros w Hw. simpl.
  apply (getpatterntuple_apply_table cipher Hkeys); [|done].
  apply apply_table_injective; [by apply cipher_injective|done].
Qed.

Lemma encrypt_keeps_patterns_witness :
  ∃ cipher ct,
    make_cipher (reverse ascii_lowercase) = Some cipher ∧
    encrypt (str "All llamas!") (reverse ascii_lowercase) = Some ct ∧
    cipherlist ct = map (map (apply_table cipher)) (cipherlist (str "All llamas!")) ∧
    getpatterntuple <$> cipherlist ct
      = getpatterntuple <$> cipherlist (str "All llamas!").
Proof.
  apply (encrypt_keeps_patterns (str "All llamas!") (reverse ascii_lowercase)).
  apply reverse_Permutation.
Defined.

(** ** The key of the cipher is among the guesses *)

Section true_key.
Context (plain : ascii → ascii).
Context (Hinj : ∀ a b, a ∈ ascii_lowercase → b ∈ ascii_lowercase →
                  plain a = plain b → a = b).
Context (Hlet : ∀ a, a ∈ ascii_lowercase → plain a ∈ ascii_lowercase).

Lemma pairs_plain cw c p : pairs cw (map plain cw) c p ↔ c ∈ cw ∧ p = plain c.
Proof.
  unfold pairs. split.
  - intros (i & Hc & Hp). rewrite list_lookup_fmap, Hc in Hp. injection Hp as <-.
    split; [by eapply list_elem_of_lookup_2|done].
  - intros [[i Hi]%list_elem_of_lookup ->]. exists i.
    by rewrite list_lookup_fmap, Hi.
Qed.

Lemma letters_plain w : letters w → letters (map plain w).
Proof.
  intros Hw. apply Forall_fmap. eapply Forall_impl; [exact Hw|]. intros c. apply Hlet.
Qed.

Lemma getpatterntuple_plain w :
  letters w → getpatterntuple (map plain w) = getpatterntuple w.
Proof.
  intros Hw. unfold getpatterntuple.
  rewrite !letters_lower by auto using letters_plain.
  by apply (getpatterntuple_loop_rename _ (λ c, c ∈ ascii_lowercase)).
Qed.

Lemma stage_true_key cw pats d :
  letters cw → map plain cw ∈ pats → letter_map d →
  (∀ c p, d !! c = Some p → p = plain c) →
  ∃ d', d' ∈ stage_out cw pats d ∧ letter_map d' ∧
    (∀ c p, d' !! c = Some p → p = plain c) ∧
    (∀ c p, d !! c = Some p → d' !! c = Some p) ∧
    ∀ c, c ∈ cw → d' !! c = Some (plain c).
Proof.
  intros Hcw Hin Hd Hag.
  assert (∀ c p, pairs cw (map plain cw) c p → admissible_at d c p) as Hadm.
  { intros c p [Hc ->]%pairs_plain. unfold admissible_at.
    destruct (d !! c) as [q|] eqn:E; [left; by rewrite (Hag c q E)|right].
    split; [done|]. intros c' p' Hc' Heq. rewrite (Hag c' p' Hc') in Heq.
    apply Hinj in Heq; [congruence| |by destruct (Hd c' p' Hc')].
    unfold letters in Hcw. rewrite Forall_forall in Hcw. auto. }
  exists (extend cw (map plain cw) d). split; [|split; [|split; [|split]]].
  - apply elem_of_stage_out. exists (map plain cw). split; [done|]. split; [|done].
    apply admits_spec. split; [by rewrite length_map|done].
  - apply extend_letter_map; auto using letters_plain.
  - intros c p [Hp|[_ ->]%pairs_plain]%extend_lookup_weak; [by apply Hag|done].
  - intros c p. by apply extend_agrees.
  - intros c Hc. destruct (d !! c) as [q|] eqn:E.
    + rewrite <-(Hag c q E). by apply extend_agrees.
    + unfold extend. apply foldl_insert_in.
      * apply elem_of_zip_pairs, pairs_plain. done.
      * by intros p' [_ ->]%elem_of_zip_pairs%pairs_plain.
Qed.

Lemma chain_true_key stages :
  Forall (λ st, letters st.1 ∧ map plain st.1 ∈ st.2) stages →
  ∀ d, letter_map d → (∀ c p, d !! c = Some p → p = plain c) →
  ∃ m, m ∈ chain_out stages d ∧
    (∀ c p, d !! c = Some p → m !! c = Some p) ∧
    ∀ st c, st ∈ stages → c ∈ st.1 → m !! c = Some (plain c).
Proof.
  induction 1 as [|[cw pats] stages [Hcw Hin] _ IH]; intros d Hd Hag; simpl in *.
  - exists d. split; [by apply list_elem_of_singleton|]. split; [done|].
    by intros st c ?%elem_of_nil.
  - destruct (stage_true_key cw pats d Hcw Hin Hd Hag) as (d' & Hd' & Hl' & Hag' & Hsub & Hnew).
    destruct (IH d' Hl' Hag') as (m & Hm & Hsub' & Hall).
    exists m. split; [apply list_elem_of_bind; eauto|]. split; [auto|].
    intros st c [->|Hst]%elem_of_cons Hc; [|by eapply Hall].
    apply Hsub', Hnew. done.
Qed.

Lemma candidates_complete cl dictfile w pw :
  w ∈ cl → pw ∈ scrubstring <$> dictfile → getpatterntuple pw = getpatterntuple w →
  pw ∈ candidates (load_patterns cl dictfile) w.
Proof.
  intros Hw Hpw Htup. unfold candidates. rewrite lookup_total_alt.
  destruct (candidates_present cl dictfile w Hw) as [ws Hws]. rewrite Hws. simpl.
  unfold load_patterns in Hws.
  apply foldl_patterns_add_lookup in Hws as (ws0 & extra & _ & _ & _ & _ & Hmem).
  apply Hmem. by right.
Qed.

Lemma run_true_key text dictfile :
  (∀ w, w ∈ cipherlist text → map plain w ∈ scrubstring <$> dictfile) →
  ∃ m, m ∈ chain_out (run_stages text dictfile) ∅ ∧
    ∀ w c, w ∈ cipherlist text → c ∈ w → m !! c = Some (plain c).
Proof.
  intros Hdict.
  assert (sorted_cipherlist text dictfile ≡ₚ cipherlist text) as Hperm.
  { unfold sorted_cipherlist. apply sort_perm. }
  destruct (chain_true_key (run_stages text dictfile)) with (d := (∅ : dict))
    as (m & Hm & _ & Hall).
  - unfold run_stages, the_stages. rewrite Forall_reverse, Forall_fmap.
    apply Forall_forall. intros w Hw. rewrite Hperm in Hw. simpl.
    pose proof (letters_cipherlist text) as Hl. rewrite Forall_forall in Hl.
    split; [by apply Hl|]. apply candidates_complete; [done|by apply Hdict|].
    by apply getpatterntuple_plain, Hl.
  - apply letter_map_empty.
  - intros c p. by rewrite lookup_empty.
  - exists m. split; [done|]. intros w c Hw Hc.
    apply (Hall (w, candidates (load_patterns (cipherlist text) dictfile) w)); [|done].
    unfold run_stages, the_stages. rewrite elem_of_reverse, list_elem_of_fmap.
    exists w. by rewrite Hperm.
Qed.

Lemma run_true_key_table text dictfile :
  (∀ w, w ∈ cipherlist text → map plain w ∈ scrubstring <$> dictfile) →
  ∃ poss,
    Forall letter_map (chain_out (run_stages text dictfile) ∅) ∧
    fold_opt observe (chain_out (run_stages text dictfile) ∅) possibilities_init
      = Some poss ∧
    resolution text dictfile = Some (finaldict poss) ∧
    decrypt text dictfile = prettyprint text (finaldict poss) ∧
    ∀ w c, w ∈ cipherlist text → c ∈ w →
      finaldict poss !! c = Some (plain c) ∨ finaldict poss !! c = Some "_".
Proof.
  intros Hdict. destruct (run_true_key text dictfile Hdict) as (m & Hm & Hkey).
  destruct (run_final text dictfile) as (poss & Hgood%good_letter_maps & Hfold & Hres & Hdec).
  exists poss. do 4 (split; [done|]). intros w c Hw Hc.
  destruct (fold_observe_init _ Hgood) as (poss1 & Hfold1 & Hposs).
  rewrite Hfold in Hfold1. injection Hfold1 as <-.
  pose proof (letters_cipherlist text) as Hl. rewrite Forall_forall in Hl.
  assert (c ∈ ascii_lowercase) as Hcl.
  { specialize (Hl w Hw). unfold letters in Hl. rewrite Forall_forall in Hl.
    by apply Hl. }
  rewrite finaldict_lookup, Hposs. apply in_lowercase_elem_of in Hcl. rewrite Hcl. simpl.
  set (s := list_to_set (omap (λ d : dict, d !! c) (chain_out (run_stages text dictfile) ∅))
            : gset ascii).
  assert (plain c ∈ s) as Hin.
  { unfold s. rewrite elem_of_list_to_set, list_elem_of_omap. exists m.
    split; [done|by apply (Hkey w)]. }
  destruct (size s) as [|[|n]] eqn:Hsz; [|left|by right].
  - apply size_empty_iff in Hsz. by apply Hsz in Hin.
  - destruct (size_1_singleton s Hsz) as [q Hq]. rewrite Hq in Hin |- *.
    apply elem_of_singleton in Hin as ->. by rewrite elements_singleton.
Qed.
End true_key.

(** X15. The search is complete for a key that explains the text: when
    the text has fewer words than there are levels of depth left, [plain]
    maps lower-case letters to lower-case letters, one to one, and the
    image of every cipher word is a (scrubbed) line of the dictionary
    file, then one of the mappings that reach the end of the chain maps
    every letter of every cipher word as [plain] does, and in the final
    table each such letter has its [plain] letter or the placeholder: never
    another letter, and never no entry. *)
Theorem true_key_survives (text : chars) (dictfile : list chars)
    (plain : ascii → ascii) (depth : nat) :
  length (cipherlist text) < depth →
  (∀ a b, a ∈ ascii_lowercase → b ∈ ascii_lowercase → plain a = plain b → a = b) →
  (∀ a, a ∈ ascii_lowercase → plain a ∈ ascii_lowercase) →
  (∀ w, w ∈ cipherlist text → map plain w ∈ scrubstring <$> dictfile) →
  ∃ ms table,
    observed_within depth text dictfile = Some ms ∧
    resolution_within depth text dictfile = Some table ∧
    (∃ m, m ∈ ms ∧ ∀ w c, w ∈ cipherlist text → c ∈ w → m !! c = Some (plain c)) ∧
    ∀ w c, w ∈ cipherlist text → c ∈ w →
      table !! c = Some (plain c) ∨ table !! c = Some "_".
Proof.
  intros Hdepth Hinj Hlet Hdict.
  rewrite observed_within_observed, resolution_within_resolution by done.
  destruct (run_true_key plain Hinj Hlet text dictfile Hdict) as (m & Hm & Hkey).
  destruct (run_true_key_table plain Hinj Hlet text dictfile Hdict)
    as (poss & _ & _ & Hres & _ & Htab).
  exists (chain_out (run_stages text dictfile) ∅), (finaldict poss).
  split; [apply observed_chain_out|]. split; [done|]. split; [eauto|done].
Qed.

Lemma true_key_survives_witness :
  ∃ ms table,
    observed_within 3 (str "dog cat") [str "dog"; str "cat"; str "cot"] = Some ms ∧
    resolution_within 3 (str "dog cat") [str "dog"; str "cat"; str "cot"] = Some table ∧
    (∃ m, m ∈ ms ∧
       ∀ w c, w ∈ cipherlist (str "dog cat") → c ∈ w → m !! c = Some c) ∧
    ∀ w c, w ∈ cipherlist (str "dog cat") → c ∈ w →
      table !! c = Some c ∨ table !! c = Some "_".
Proof.
  apply (true_key_survives (str "dog cat") [str "dog"; str "cat"; str "cot"] (λ a, a) 3).
  - vm_compute. lia.
  - intros a b _ _ H. exact H.
  - intros a H. exact H.
  - intros w Hw. rewrite map_id.
    assert (cipherlist (str "dog cat") = [str "dog"; str "cat"]) as Hcl
      by (vm_compute; reflexivity).
    rewrite Hcl in Hw. repeat (apply elem_of_cons in Hw as [->|Hw]; [by_eval|]).
    by apply elem_of_nil in Hw.
Defined.

(** ** Decrypting an encrypted text *)

Lemma split_loop_elem_of text ch : ∀ cur,
  ch ≠ " " → ch ∈ text ∨ ch ∈ cur → ∃ tok, tok ∈ split_loop text cur ∧ ch ∈ tok.
Proof.
  induction text as [|c text IH]; intros cur Hne Hin; simpl.
  - destruct Hin as [?%elem_of_nil|?]; [done|]. exists cur. split; [by left|done].
  - case_bool_decide as Hc.
    + destruct Hin as [[->|Hin]%elem_of_cons|Hin]; [done| |].
      * destruct (IH [] Hne (or_introl Hin)) as (tok & ? & ?). exists tok.
        split; [by right|done].
      * exists cur. split; [by left|done].
    + apply IH; [done|]. rewrite elem_of_app, list_elem_of_singleton.
      destruct Hin as [[->|Hin]%elem_of_cons|Hin]; auto.
Qed.

Lemma alpha_in_cipherlist text ch :
  ch ∈ text → is_alpha ch = true → ∃ w, w ∈ cipherlist text ∧ lower ch ∈ w.
Proof.
  intros Hin Ha.
  destruct (split_loop_elem_of text ch []) as (tok & Htok & Hch); [by intros ->|by left|].
  exists (scrubstring tok).
  assert (lower ch ∈ scrubstring tok) as Hl.
  { unfold scrubstring. apply list_elem_of_filter. split; [by apply alpha_lower|].
    apply list_elem_of_fmap. eauto. }
  split; [|done]. unfold cipherlist. apply list_elem_of_filter. split.
  - intros Hnil. rewrite Hnil in Hl. by apply elem_of_nil in Hl.
  - apply list_elem_of_fmap. eauto.
Qed.

Lemma upper_underscore : upper "_" = "_".
Proof. reflexivity. Qed.

(** X16. Encrypting and then decrypting: when a text has fewer words than
    there are levels of depth left and every word of it is a (scrubbed)
    line of the dictionary file, the text encrypted with the cipher of any
    shuffle and then decrypted shows, at every position, the character of
    the text or the placeholder; it never shows a wrong letter. *)
Theorem decrypt_encrypt (plaintext letters : chars) (dictfile : list chars)
    (depth : nat) :
  length (cipherlist plaintext) < depth →
  letters ≡ₚ ascii_lowercase →
  (∀ w, w ∈ cipherlist plaintext → w ∈ scrubstring <$> dictfile) →
  ∃ ct out,
    encrypt plaintext letters = Some ct ∧
    decrypt_within depth ct dictfile = Some out ∧
    length out = length plaintext ∧
    ∀ i ch, plaintext !! i = Some ch →
      out !! i = Some ch ∨ out !! i = Some "_".
Proof.
  intros Hdepth Hperm Hdict. set (cipher := extend ascii_lowercase letters ∅).
  set (key := inverse_key letters). set (plain := apply_table key).
  assert (make_cipher letters = Some cipher) as Hmk.
  { apply make_cipher_extend. by rewrite Hperm. }
  pose proof (cipher_total letters Hperm) as Hkeys. fold cipher in Hkeys.
  assert (∀ c p, cipher !! c = Some p → c ∈ ascii_lowercase) as Hdom.
  { intros c p Hp. by destruct (cipher_letter_map letters Hperm c p Hp). }
  assert (∀ c, c ∈ ascii_lowercase → plain (apply_table cipher c) = c) as Hback.
  { intros c Hc. destruct (Hkeys c Hc) as (v & Hv & _). unfold plain, apply_table.
    rewrite Hv. simpl. apply (inverse_key_lookup letters Hperm) in Hv.
    fold key in Hv. by rewrite Hv. }
  assert (∀ p, p ∈ ascii_lowercase → ∃ c, key !! p = Some c ∧ c ∈ ascii_lowercase) as Hkkeys.
  { intros p Hp. rewrite <-Hperm in Hp. apply list_elem_of_lookup in Hp as [i Hi].
    destruct (lookup_lt_is_Some_2 ascii_lowercase i) as [c Hc].
    { rewrite <-Hperm. by eapply lookup_lt_Some. }
    exists c. split; [|by eapply list_elem_of_lookup_2].
    apply (inverse_key_lookup letters Hperm), cipher_lookup; [done|]. by exists i. }
  assert (injective key) as Hkinj.
  { intros p p' c Hp Hp'. apply (inverse_key_lookup letters Hperm) in Hp, Hp'. congruence. }
  set (ct := map (render cipher) plaintext).
  assert (cipherlist ct = map (map (apply_table cipher)) (cipherlist plaintext)) as Hcl.
  { apply (cipherlist_render cipher Hkeys Hdom). }
  pose proof (letters_cipherlist plaintext) as Hlw. rewrite Forall_forall in Hlw.
  destruct (run_true_key_table plain) with (text := ct) (dictfile := dictfile)
    as (poss & Hlm & Hfold & _ & Hdec & Htab).
  { by apply apply_table_injective. }
  { intros a Ha. destruct (Hkkeys a Ha) as (c & Hc & Hcl'). unfold plain, apply_table.
    by rewrite Hc. }
  { intros w'. rewrite Hcl. intros (w & -> & Hw)%list_elem_of_fmap.
    rewrite map_map. rewrite (map_ext_Forall _ id); [rewrite map_id; by apply Hdict|].
    eapply Forall_impl; [apply (Hlw w Hw)|]. intros c Hc. by apply Hback. }
  exists ct, (map (render (finaldict poss)) ct).
  split; [unfold encrypt; rewrite Hmk; apply prettyprint_render|].
  split.
  { rewrite decrypt_within_decrypt by (by rewrite Hcl, length_map).
    by rewrite Hdec, prettyprint_render. }
  split; [unfold ct; by rewrite !length_map|].
  intros i ch Hi. unfold ct. rewrite !list_lookup_fmap, Hi. simpl.
  assert (render (finaldict poss) (render cipher ch) = ch
          ∨ render (finaldict poss) (render cipher ch) = "_") as [->| ->];
    [|by left|by right].
  destruct (is_alpha ch) eqn:Ha.
  - destruct (Hkeys (lower ch) (alpha_lower ch Ha)) as (v & Hv & Hvl).
    assert (render cipher ch = if in_lowercase ch then v else upper v) as Hx.
    { unfold render. by rewrite Hv. }
    destruct (render_alpha cipher Hkeys ch Ha) as (Hxa & Hxl & _).
    assert (render cipher ch ∈ ct) as Hin.
    { apply list_elem_of_fmap. exists ch. split; [done|]. by eapply list_elem_of_lookup_2. }
    destruct (alpha_in_cipherlist ct _ Hin Hxa) as (w' & Hw' & Hlw').
    pose proof (Htab w' _ Hw' Hlw') as Ht. rewrite Hxl, (Hback _ (alpha_lower ch Ha)) in Ht.
    unfold render at 1 3. rewrite Hxl, Hx. destruct (in_lowercase ch) eqn:Hch.
    + apply in_lowercase_elem_of in Hvl as Hvl'. rewrite Hvl'.
      apply in_lowercase_elem_of, lower_lowercase in Hch.
      destruct Ht as [->| ->]; [left|by right]. done.
    + destruct (upper_lowercase v Hvl) as [Hup _].
      rewrite (uppercase_not_lowercase _ Hup).
      destruct (lower_uppercase ch (alpha_not_lowercase ch Ha Hch)) as [_ Hul].
      destruct Ht as [->| ->]; [by left|by right].
  - left. rewrite (render_not_alpha cipher Hdom ch Ha). unfold render.
    destruct (finaldict poss !! lower ch) as [t|] eqn:Ht; [|done].
    destruct (finaldict_reachable _ _ _ _ Hlm Hfold Ht) as (Hl & _).
    by apply alpha_lower_lowercase in Ha.
Qed.

Lemma decrypt_encrypt_witness :
  ∃ ct out,
    encrypt (str "Dog, cat!") (reverse ascii_lowercase) = Some ct ∧
    decrypt_within 3 ct [str "dog"; str "cat"; str "cot"] = Some out ∧
    length out = length (str "Dog, cat!") ∧
    ∀ i ch, str "Dog, cat!" !! i = Some ch →
      out !! i = Some ch ∨ out !! i = Some "_".
Proof.
  apply (decrypt_encrypt (str "Dog, cat!") (reverse ascii_lowercase)
           [str "dog"; str "cat"; str "cot"] 3).
  - vm_compute. lia.
  - apply reverse_Permutation.
  - intros w Hw.
    assert (cipherlist (str "Dog, cat!") = [str "dog"; str "cat"]) as Hcl
      by (vm_compute; reflexivity).
    rewrite Hcl in Hw. repeat (apply elem_of_cons in Hw as [->|Hw]; [by_eval|]).
    by apply elem_of_nil in Hw.
Defined.

(** ** A stage whose word is already mapped *)

Lemma foldl_insert_id (l : list (ascii * ascii)) (d : dict) :
  (∀ c p, (c, p) ∈ l → d !! c = Some p) →
  foldl (λ d cp, <[cp.1 := cp.2]> d) d l = d.
Proof.
  induction l as [|[c p] l IH]; intros Hl; simpl; [done|].
  rewrite insert_id by (apply Hl; by left). apply IH. intros c' p' Hin. apply Hl. by right.
Qed.

Lemma admits_mapped cw pw d :
  Forall (λ c, is_Some (d !! c)) cw →
  admits cw pw d = true ↔ pw = map (apply_table d) cw.
Proof.
  intros Hall. rewrite Forall_forall in Hall. rewrite admits_spec. split.
  - intros [Hlen Hadm]. apply list_eq. intros i. rewrite list_lookup_fmap.
    destruct (cw !! i) as [c|] eqn:Hc; simpl.
    + destruct (lookup_lt_is_Some_2 pw i) as [p Hp].
      { rewrite <-Hlen. by eapply lookup_lt_Some. }
      rewrite Hp. f_equal. unfold apply_table.
      destruct (Hadm c p) as [Hd|[Hd _]]; [by exists i|by rewrite Hd|].
      destruct (Hall c) as [? ?]; [by eapply list_elem_of_lookup_2|congruence].
    + apply lookup_ge_None. rewrite <-Hlen. by apply lookup_ge_None.
  - intros ->. split; [by rewrite length_map|].
    intros c p (i & Hc & Hp). rewrite list_lookup_fmap, Hc in Hp. injection Hp as <-.
    left. unfold apply_table. destruct (Hall c) as [q Hq]; [by eapply list_elem_of_lookup_2|].
    by rewrite Hq.
Qed.

Lemma extend_mapped cw d :
  Forall (λ c, is_Some (d !! c)) cw → extend cw (map (apply_table d) cw) d = d.
Proof.
  intros Hall. rewrite Forall_forall in Hall. unfold extend. apply foldl_insert_id.
  intros c p (i & Hc & Hp)%elem_of_zip_pairs.
  rewrite list_lookup_fmap, Hc in Hp. injection Hp as <-. unfold apply_table.
  destruct (Hall c) as [q Hq]; [by eapply list_elem_of_lookup_2|]. by rewrite Hq.
Qed.

Lemma bind_select {A B} `{EqDecision A} (l : list A) (x : A) (y : B)
    (test : A → bool) (f : A → B) :
  NoDup l → (∀ a, test a = true ↔ a = x) → f x = y →
  l ≫= (λ a, if test a then [f a] else []) = if decide (x ∈ l) then [y] else [].
Proof.
  intros Hnd Htest Hf. induction Hnd as [|a l Ha Hnd IH]; [done|].
  rewrite bind_cons, IH. destruct (test a) eqn:Et.
  - apply Htest in Et as ->.
    destruct (decide (x ∈ x :: l)) as [_|Hn]; [|destruct Hn; by left].
    destruct (decide (x ∈ l)); [done|]. by rewrite Hf.
  - destruct (decide (x ∈ l)) as [Hin|Hin].
    + destruct (decide (x ∈ a :: l)) as [_|Hn]; [done|]. destruct Hn. by right.
    + destruct (decide (x ∈ a :: l)) as [[->|?]%elem_of_cons|_]; [|done..].
      assert (test a = true) by by apply Htest. congruence.
Qed.

(** X17. A stage whose cipher word is already mapped letter for letter only
    filters: it sends the inbound mapping on, unchanged and once, when the
    word as the mapping decodes it is one of its candidates, and sends
    nothing otherwise. *)
Theorem guesser_filter (cipherword : chars) (patterns : list chars) (guess : nat)
    (σ : store (list dict)) (d : dict) :
  heap σ !! guess = Some d → letters (values d) → Forall letters patterns →
  NoDup patterns → Forall (λ c, is_Some (d !! c)) cipherword →
  ∃ σ', guesser cipherword patterns recorder guess σ = Some σ' ∧
    sink σ' = sink σ ++
      if decide (map (apply_table d) cipherword ∈ patterns) then [d] else [].
Proof.
  intros Hg Hv Hpats Hnd Hall.
  destruct (guesser_recorder cipherword patterns guess σ d Hg Hv Hpats) as [h' Hrun].
  eexists. split; [exact Hrun|]. simpl. f_equal. unfold stage_out.
  apply bind_select; [done| |by apply extend_mapped].
  intros pw. by apply admits_mapped.
Qed.

Lemma guesser_filter_witness :
  let d : dict := <["x" := "d"]> (<["d" := "o"]> {[ "g" := "g" ]}) in
  let σ := Store [d] [] in
  ∃ σ', guesser (str "xdg") [str "cat"; str "dog"] recorder 0 σ = Some σ' ∧
    sink σ' = sink σ ++
      if decide (map (apply_table d) (str "xdg") ∈ [str "cat"; str "dog"])
      then [d] else [].
Proof.
  apply (guesser_filter (str "xdg") [str "cat"; str "dog"] 0
           (Store [<["x" := "d"]> (<["d" := "o"]> {[ "g" := "g" ]})] [])
           (<["x" := "d"]> (<["d" := "o"]> {[ "g" := "g" ]}))).
  - reflexivity.
  - by_eval.
  - by_eval.
  - by_eval.
  - by_eval.
Defined.

(** ** The fan-out of a stage *)

Lemma stage_out_length cw pats d : length (stage_out cw pats d) ≤ length pats.
Proof.
  unfold stage_out. induction pats as [|pw pats IH]; [done|].
  rewrite bind_cons, length_app. destruct (admits cw pw d); simpl in *; lia.
Qed.

Lemma extend_determines cw pw pw' d :
  same_shape cw pw → same_shape cw pw' →
  extend cw pw d = extend cw pw' d → pw = pw'.
Proof.
  intros Hsh Hsh' Heq. apply list_eq. intros i.
  destruct (cw !! i) as [c|] eqn:Hc.
  - destruct (lookup_lt_is_Some_2 pw i) as [p Hp].
    { rewrite <-(proj1 Hsh). by eapply lookup_lt_Some. }
    destruct (lookup_lt_is_Some_2 pw' i) as [p' Hp'].
    { rewrite <-(proj1 Hsh'). by eapply lookup_lt_Some. }
    assert (extend cw pw d !! c = Some p) as H1 by (apply extend_new; [done|by exists i]).
    assert (extend cw pw' d !! c = Some p') as H2 by (apply extend_new; [done|by exists i]).
    rewrite Heq in H1. congruence.
  - apply lookup_ge_None in Hc.
    rewrite (lookup_ge_None_2 pw), (lookup_ge_None_2 pw'); [done|..].
    + by rewrite <-(proj1 Hsh').
    + by rewrite <-(proj1 Hsh).
Qed.

Lemma stage_out_NoDup cw pats d :
  NoDup pats → Forall (same_shape cw) pats → NoDup (stage_out cw pats d).
Proof.
  intros Hnd Hsh. unfold stage_out. induction Hnd as [|pw pats Hpw Hnd IH]; [constructor|].
  apply Forall_cons in Hsh as [Hshw Hsh]. rewrite bind_cons.
  change (pats ≫= _) with (stage_out cw pats d).
  destruct (admits cw pw d); [|by apply IH]. cbn [app]. constructor; [|by apply IH].
  intros (pw' & Hin & _ & Heq)%elem_of_stage_out. rewrite Forall_forall in Hsh.
  apply extend_determines in Heq; [congruence|done|by apply Hsh].
Qed.

(** X18. The fan-out of a stage: for one inbound mapping it sends at most as
    many mappings as it has candidates, and, its candidates being distinct
    words of the shape of its cipher word, it never sends the same mapping
    twice. *)
Theorem guesser_fanout (cipherword : chars) (patterns : list chars) (guess : nat)
    (σ : store (list dict)) (d : dict) :
  heap σ !! guess = Some d → letters (values d) → Forall letters patterns →
  NoDup patterns → letters cipherword →
  Forall (λ pw, getpatterntuple pw = getpatterntuple cipherword) patterns →
  ∃ σ' sent, guesser cipherword patterns recorder guess σ = Some σ' ∧
    sink σ' = sink σ ++ sent ∧ length sent ≤ length patterns ∧ NoDup sent.
Proof.
  intros Hg Hv Hpats Hnd Hcw Htup.
  destruct (guesser_recorder cipherword patterns guess σ d Hg Hv Hpats) as [h' Hrun].
  eexists _, (stage_out cipherword patterns d). split; [exact Hrun|]. simpl.
  split; [done|]. split; [apply stage_out_length|]. apply stage_out_NoDup; [done|].
  rewrite Forall_forall in Hpats, Htup. apply Forall_forall. intros pw Hpw.
  apply getpatterntuple_same_shape; [done|by apply Hpats|]. symmetry. by apply Htup.
Qed.

Lemma guesser_fanout_witness :
  let σ := Store [(∅ : dict)] [] in
  ∃ σ' sent, guesser (str "xdg") [str "cat"; str "dog"] recorder 0 σ = Some σ' ∧
    sink σ' = sink σ ++ sent ∧ length sent ≤ length [str "cat"; str "dog"] ∧
    NoDup sent.
Proof.
  apply (guesser_fanout (str "xdg") [str "cat"; str "dog"] 0 (Store [∅] []) ∅).
  - reflexivity.
  - by_eval.
  - by_eval.
  - by_eval.
  - by_eval.
  - by_eval.
Defined.

(** ** Repeated words *)

(** A stage lets through, unchanged, what it has sent itself, and makes
    nothing else of it. *)
Lemma stage_out_fixed cw pats d d1 :
  Forall (same_shape cw) pats → d1 ∈ stage_out cw pats d →
  ∀ m, m ∈ stage_out cw pats d1 ↔ m = d1.
Proof.
  intros Hsh (pw & Hpw & Hadm & ->)%elem_of_stage_out m.
  rewrite Forall_forall in Hsh. pose proof (Hsh pw Hpw) as Hshw.
  assert (Forall (λ c, is_Some (extend cw pw d !! c)) cw) as Hall.
  { apply Forall_forall. intros c [i Hi]%list_elem_of_lookup.
    destruct (lookup_lt_is_Some_2 pw i) as [p Hp].
    { rewrite <-(proj1 Hshw). by eapply lookup_lt_Some. }
    exists p. apply extend_new; [done|by exists i]. }
  assert (map (apply_table (extend cw pw d)) cw = pw) as Hdec.
  { apply list_eq. intros i. rewrite list_lookup_fmap.
    destruct (cw !! i) as [c|] eqn:Hc; simpl.
    - destruct (lookup_lt_is_Some_2 pw i) as [p Hp].
      { rewrite <-(proj1 Hshw). by eapply lookup_lt_Some. }
      rewrite Hp. f_equal. unfold apply_table.
      rewrite (extend_new cw pw d c p Hshw); [done|by exists i].
    - symmetry. apply lookup_ge_None. rewrite <-(proj1 Hshw). by apply lookup_ge_None. }
  rewrite elem_of_stage_out. split.
  - intros (pw' & _ & Hadm'%(admits_mapped _ _ _ Hall) & ->).
    rewrite Hadm'. by apply extend_mapped.
  - intros ->. exists pw. split; [done|]. split.
    + apply admits_mapped; [done|]. by rewrite Hdec.
    + rewrite <-Hdec at 2. symmetry. by apply extend_mapped.
Qed.

Lemma chain_out_duplicate st stages :
  st ∈ stages → Forall shape_stage (st :: stages) →
  ∀ d m, injective d → m ∈ chain_out (st :: stages) d ↔ m ∈ chain_out stages d.
Proof.
  intros [rest Hrest]%elem_of_Permutation Hsh d m Hinj.
  assert (Forall shape_stage (st :: st :: rest)) as Hsh'.
  { apply Forall_cons in Hsh as [Hst Hsh]. rewrite Hrest in Hsh. by constructor. }
  assert (st :: stages ≡ₚ st :: st :: rest) as Hperm by by rewrite Hrest.
  rewrite (chain_out_permutation _ _ Hperm Hsh d m Hinj).
  apply Forall_cons in Hsh' as [Hst Hsh']. apply Forall_cons in Hsh as [_ Hsh].
  rewrite (chain_out_permutation _ _ Hrest Hsh d m Hinj).
  destruct st as [cw pats]. unfold shape_stage in Hst. simpl in Hst.
  cbn [chain_out]. rewrite !list_elem_of_bind. split.
  - intros (d1 & (d2 & Hm & Hd2)%list_elem_of_bind & Hd1).
    apply (stage_out_fixed cw pats d d1 Hst Hd1) in Hd2 as ->. eauto.
  - intros (d1 & Hm & Hd1). exists d1. split; [|done].
    apply list_elem_of_bind. exists d1. split; [done|].
    by apply (stage_out_fixed cw pats d d1 Hst Hd1).
Qed.

Lemma chain_out_remove_dups (mk : chars → chars * list chars) order :
  Forall shape_stage (mk <$> order) →
  ∀ d m, injective d →
    m ∈ chain_out (mk <$> order) d ↔ m ∈ chain_out (mk <$> remove_dups order) d.
Proof.
  induction order as [|w order IH]; intros Hsh d m Hinj; [done|].
  rewrite fmap_cons in Hsh. apply Forall_cons in Hsh as Hsh2. destruct Hsh2 as [Hw Hsh'].
  cbn [remove_dups]. destruct (decide_rel elem_of w order) as [Hin|Hin].
  - rewrite <-(IH Hsh' d m Hinj). rewrite fmap_cons.
    apply chain_out_duplicate; [|done|done]. apply list_elem_of_fmap. eauto.
  - rewrite !fmap_cons. destruct (mk w) as [cw pats] eqn:E.
    cbn [chain_out]. rewrite !list_elem_of_bind.
    split; intros (d1 & Hm & Hd1); exists d1; (split; [|done]);
      apply (IH Hsh' d1 m); try done; by eapply stage_out_injective.
Qed.

Lemma length_remove_dups {A} `{EqDecision A} (l : list A) :
  length (remove_dups l) ≤ length l.
Proof.
  induction l as [|x l IH]; [done|]. cbn [remove_dups].
  destruct (decide_rel elem_of x l); simpl; lia.
Qed.

(** X19. One stage for each occurrence of a word, or one for each word, is
    the same for the result when the text has fewer words than there are
    levels of depth left: the chain assembled over the cipher words without
    their repetitions leaves the collector with the table of the run. *)
Theorem repeated_words_harmless (text : chars) (dictfile : list chars)
    (depth : nat) :
  length (cipherlist text) < depth →
  ∃ table,
    resolution_within depth text dictfile = Some table ∧
    finaldict ∘ sink <$>
      send_empty_within depth (remove_dups (cipherlist text))
        (load_patterns (cipherlist text) dictfile)
        guesscollector possibilities_init = Some table.
Proof.
  intros Hdepth. rewrite resolution_within_resolution by done.
  unfold send_empty_within. rewrite chain_within_chain; last first.
  { eapply Nat.le_lt_trans; [apply length_remove_dups|exact Hdepth]. }
  fold (send_empty (remove_dups (cipherlist text))
          (load_patterns (cipherlist text) dictfile) guesscollector possibilities_init).
  set (patterns := load_patterns (cipherlist text) dictfile).
  pose proof (load_patterns_ok (cipherlist text) dictfile) as Hok. fold patterns in Hok.
  pose proof (letters_cipherlist text) as Hcl.
  assert (Forall letters (remove_dups (cipherlist text))) as Hord.
  { apply Forall_forall. intros w Hw.
    exact (proj1 (Forall_forall _ _) Hcl w (proj1 (elem_of_remove_dups _ _) Hw)). }
  pose proof (letters_sorted_cipherlist text dictfile) as Hsorted.
  destruct (send_empty_collector _ patterns Hord Hok) as (h1 & poss1 & Hrun1 & _ & Hp1).
  destruct (send_empty_collector _ patterns Hsorted Hok) as (h2 & poss2 & Hrun2 & _ & Hp2).
  exists (finaldict poss2). unfold resolution, run. fold patterns. rewrite Hrun1, Hrun2. simpl.
  split; [done|]. do 2 f_equal. apply map_eq. intros c. rewrite Hp1, Hp2.
  destruct (in_lowercase c); [|done]. f_equal. apply set_eq. intros p.
  rewrite !elem_of_list_to_set, !list_elem_of_omap.
  set (mk := λ w : chars, (w, candidates patterns w)).
  assert (∀ order, Forall letters order → Forall shape_stage (mk <$> order)) as Hshape.
  { intros order Ho. destruct (the_stages_wf order patterns Ho Hok) as [_ Hsh].
    unfold the_stages in Hsh. by rewrite Forall_reverse in Hsh. }
  assert (∀ m, m ∈ chain_out (the_stages (remove_dups (cipherlist text)) patterns) ∅ ↔
               m ∈ chain_out (the_stages (sorted_cipherlist text dictfile) patterns) ∅) as Heq.
  { intros m. unfold the_stages. fold mk.
    pose proof (chain_out_permutation (reverse (mk <$> remove_dups (cipherlist text)))
      (mk <$> remove_dups (cipherlist text)) (reverse_Permutation _)
      (proj2 (Forall_reverse _ _) (Hshape _ Hord)) ∅ m injective_empty) as H1.
    pose proof (chain_out_remove_dups mk (cipherlist text) (Hshape _ Hcl)
      ∅ m injective_empty) as H2.
    assert (mk <$> cipherlist text ≡ₚ reverse (mk <$> sorted_cipherlist text dictfile)) as Hperm.
    { rewrite reverse_Permutation. unfold sorted_cipherlist. by rewrite sort_perm. }
    pose proof (chain_out_permutation _ _ Hperm (Hshape _ Hcl) ∅ m injective_empty) as H3.
    tauto. }
  split; intros (m & Hm & Hc); exists m; (split; [|done]); by apply Heq.
Qed.

Lemma repeated_words_harmless_witness :
  ∃ table,
    resolution_within 4 (str "dog cat dog") [str "dog"; str "cat"; str "cot"]
      = Some table ∧
    finaldict ∘ sink <$>
      send_empty_within 4 (remove_dups (cipherlist (str "dog cat dog")))
        (load_patterns (cipherlist (str "dog cat dog")) [str "dog"; str "cat"; str "cot"])
        guesscollector possibilities_init = Some table.
Proof.
  apply (repeated_words_harmless (str "dog cat dog")
           [str "dog"; str "cat"; str "cot"] 4).
  vm_compute. lia.
Defined.

(** ** A whole chain *)

(** X20. A chain over words of the cipher list, shorter than the depth
    that is left, in front of the collector comes back from a [send]
    without an error and leaves the guess it was sent, and every other
    dictionary that exists, as it was: whatever the words and the
    dictionary file, the heap it was given is a prefix of the heap it
    leaves. *)
Theorem chain_frame (order cipherlist dictfile : list chars) (guess : nat)
    (σ : store possibilities) (d : dict) (depth : nat) :
  length order < depth → Forall (λ w, w ∈ cipherlist) order →
  Forall letters order → heap σ !! guess = Some d → letter_map d → injective d →
  Forall (λ c, is_Some (sink σ !! c)) ascii_lowercase →
  ∃ σ' h',
    chain_within order (load_patterns cipherlist dictfile) guesscollector depth guess σ
      = Some σ' ∧
    heap σ' = heap σ ++ h' ∧ heap σ' !! guess = Some d.
Proof.
  intros Hdepth _ Hord Hg Hd Hinj Hkeys. rewrite Forall_forall in Hkeys.
  rewrite chain_within_chain by done.
  pose proof (load_patterns_ok cipherlist dictfile) as Hok.
  destruct (the_stages_wf order _ Hord Hok) as [Hwf Hsh].
  pose proof (chain_implements observe order _ Hwf Hsh guess σ d Hg (conj Hd Hinj)) as H.
  change (reader observe) with guesscollector in H.
  destruct (fold_observe_spec
              (chain_out (the_stages order (load_patterns cipherlist dictfile)) d) (sink σ))
    as (poss' & Hfold & _).
  { intros m c p Hm Hcp.
    destruct (chain_out_good _ Hwf Hsh d m (conj Hd Hinj) Hm) as [Hlm _].
    apply Hkeys. by destruct (Hlm c p Hcp). }
  rewrite Hfold in H. destruct H as (h' & Hrun & _).
  eexists _, h'. split; [exact Hrun|]. simpl. split; [done|by apply lookup_app_l_Some].
Qed.

Lemma chain_frame_witness :
  let σ := Store [(∅ : dict)] possibilities_init in
  ∃ σ' h',
    chain_within [str "xdg"; str "god"]
      (load_patterns [str "xdg"; str "god"] [str "dog"; str "god"])
      guesscollector 3 0 σ = Some σ' ∧
    heap σ' = heap σ ++ h' ∧ heap σ' !! 0 = Some (∅ : dict).
Proof.
  apply (chain_frame [str "xdg"; str "god"] [str "xdg"; str "god"]
           [str "dog"; str "god"] 0 (Store [∅] possibilities_init) ∅ 3).
  - simpl. lia.
  - repeat constructor.
  - by_eval.
  - reflexivity.
  - by_eval.
  - intros c c' p H. by rewrite lookup_empty in H.
  - by_eval.
Defined.

(** ** No mapping arrives twice *)

Lemma chain_out_extends stages : ∀ d m,
  m ∈ chain_out stages d → ∀ c p, d !! c = Some p → m !! c = Some p.
Proof.
  induction stages as [|[cw pats] stages IH]; intros d m; simpl.
  - by intros ->%list_elem_of_singleton.
  - intros (d1 & Hm & (pw & _ & [_ Hadm]%admits_spec & ->)%elem_of_stage_out)%list_elem_of_bind c p Hcp.
    apply (IH _ _ Hm). by apply extend_agrees.
Qed.

Lemma chain_out_NoDup stages :
  Forall shape_stage stages → Forall (λ st, NoDup st.2) stages →
  ∀ d, NoDup (chain_out stages d).
Proof.
  induction 1 as [|[cw pats] stages Hsh _ IH]; intros Hnd d; simpl.
  - apply NoDup_singleton.
  - apply Forall_cons in Hnd as [Hndp Hnd]. unfold shape_stage in Hsh. simpl in *.
    apply NoDup_bind; [|by auto|by apply stage_out_NoDup].
    intros x1 x2 y (pw1 & Hpw1 & _ & ->)%elem_of_stage_out
      (pw2 & Hpw2 & _ & ->)%elem_of_stage_out Hy1 Hy2.
    rewrite Forall_forall in Hsh. f_equal. apply list_eq. intros i.
    pose proof (Hsh pw1 Hpw1) as Hs1. pose proof (Hsh pw2 Hpw2) as Hs2.
    destruct (cw !! i) as [c|] eqn:Hc.
    + destruct (lookup_lt_is_Some_2 pw1 i) as [p1 Hp1].
      { rewrite <-(proj1 Hs1). by eapply lookup_lt_Some. }
      destruct (lookup_lt_is_Some_2 pw2 i) as [p2 Hp2].
      { rewrite <-(proj1 Hs2). by eapply lookup_lt_Some. }
      assert (y !! c = Some p1) as H1.
      { apply (chain_out_extends _ _ _ Hy1), extend_new; [done|by exists i]. }
      assert (y !! c = Some p2) as H2.
      { apply (chain_out_extends _ _ _ Hy2), extend_new; [done|by exists i]. }
      congruence.
    + apply lookup_ge_None in Hc.
      rewrite (lookup_ge_None_2 pw1), (lookup_ge_None_2 pw2); [done|..].
      * by rewrite <-(proj1 Hs2).
      * by rewrite <-(proj1 Hs1).
Qed.

Lemma candidates_NoDup cl dictfile w : NoDup (candidates (load_patterns cl dictfile) w).
Proof.
  unfold candidates. rewrite lookup_total_alt.
  destruct (load_patterns cl dictfile !! getpatterntuple w) as [ws|] eqn:E; simpl;
    [|apply NoDup_nil_2].
  unfold load_patterns in E.
  apply foldl_patterns_add_lookup in E as (ws0 & extra & H0 & _ & _ & Hnd & _).
  apply Hnd. rewrite patterns_init_lookup in H0. case_bool_decide; [|done].
  injection H0 as <-. apply NoDup_nil_2.
Qed.

(** X21. No mapping reaches the collector twice: the mappings that arrive
    at the end of the chain in a run are pairwise different, also when a
    word occurs several times in the text. *)
Theorem observed_NoDup (text : chars) (dictfile : list chars) :
  ∃ ms, observed text dictfile = Some ms ∧ NoDup ms.
Proof.
  exists (chain_out (run_stages text dictfile) ∅). split; [apply observed_chain_out|].
  destruct (the_stages_wf _ _ (letters_sorted_cipherlist text dictfile)
              (load_patterns_ok (cipherlist text) dictfile)) as [_ Hsh].
  apply chain_out_NoDup; [done|]. unfold run_stages, the_stages.
  rewrite Forall_reverse, Forall_fmap. apply Forall_forall. intros w _. simpl.
  apply candidates_NoDup.
Qed.
